(** * Nearest-question retrieval of [qamodel/demo/qajupyter.ipynb]

    A shallow embedding of the two classes of the notebook, [QAEmbedder] and
    [QASearcher], together with the parts of Python and of the tensor
    library they call.

    Conventions.
    - The program is embedded twice.  In the first part tensor entries
      (float32 in the program) are idealised as real numbers: rounding,
      infinities and NaN are not represented; the statements proved there
      are about exceptions, shapes, state and the order of results, or say
      that they hold in exact arithmetic.  In the module [General] the
      program is written over an interface of the arithmetic, with the
      reals, reals with undefined results, and IEEE binary32 as
      instances; statements about which entry is selected, about the
      value of a score and about divisions are made there.  Over the
      reals the two embeddings agree ([real_get_answers]).
    - A Python exception is the name of its class; a call either returns or
      raises ([result]).  Methods of [QASearcher] run in a state-and-exception
      monad over the fields of the object, so that an exception keeps the
      assignments made before it.
    - The pretrained tokenizer and transformer are external: they are the
      fields of the class [EmbeddingProvider] (of [General.Provider] in
      the second embedding). *)

From Stdlib Require Import String Ascii.
From Stdlib Require Import Reals Lra Lia ZArith Bool Arith Psatz List.
From Stdlib Require Import Floats.SpecFloat.
Import ListNotations.

Set Implicit Arguments.

(** ** Python: exceptions, ranges, slices, subscripts *)

Module Py.

Definition exn := string.

Definition ValueError : exn := "ValueError"%string.
Definition RuntimeError : exn := "RuntimeError"%string.
Definition TypeError : exn := "TypeError"%string.
Definition IndexError : exn := "IndexError"%string.

Inductive result (A : Type) : Type :=
| Ok (a : A)
| Raise (e : exn).

Arguments Ok {A} a.
Arguments Raise {A} e.

Definition bind_result {A B} (c : result A) (k : A -> result B) : result B :=
  match c with
  | Ok a => k a
  | Raise e => Raise e
  end.

(** A method body: it reads and writes the object [S] and may raise. *)
Definition M (S A : Type) : Type := S -> S * result A.

Definition ret {S A} (a : A) : M S A := fun s => (s, Ok a).

Definition raise {S A} (e : exn) : M S A := fun s => (s, Raise e).

Definition bind {S A B} (c : M S A) (k : A -> M S B) : M S B :=
  fun s =>
    match c s with
    | (s', Ok a) => k a s'
    | (s', Raise e) => (s', Raise e)
    end.

Definition lift {S A} (c : result A) : M S A := fun s => (s, c).

Definition read {S A} (field : S -> A) : M S A := fun s => (s, Ok (field s)).

Definition write {S} (update : S -> S) : M S unit := fun s => (update s, Ok tt).

(** [for x in l: acc.append(f(x))] *)
Fixpoint for_each {S A B} (f : A -> M S B) (l : list A) : M S (list B) :=
  match l with
  | [] => ret []
  | x :: l' =>
      bind (f x) (fun y => bind (for_each f l') (fun ys => ret (y :: ys)))
  end.

(** The values [i, i + step, ...] below [stop]; [fuel] bounds their number. *)
Fixpoint range_from (fuel i stop step : nat) : list nat :=
  match fuel with
  | O => []
  | S fuel' =>
      if i <? stop then i :: range_from fuel' (i + step) stop step else []
  end.

(** [range(0, stop, step)] for [stop >= 0]. *)
Definition range (stop : nat) (step : Z) : result (list nat) :=
  if (step =? 0)%Z then Raise ValueError
  else if (step <? 0)%Z then Ok []
  else Ok (range_from stop 0 stop (Z.to_nat step)).

(** [l[i:j]] for [0 <= i <= j]. *)
Definition slice {A} (l : list A) (i j : nat) : list A :=
  firstn (j - i) (skipn i l).

(** [l[i]] for [0 <= i]. *)
Definition getitem {A} (l : list A) (i : nat) : result A :=
  match nth_error l i with
  | Some x => Ok x
  | None => Raise IndexError
  end.

(** [o[i]] where the attribute [o] may be [None]. *)
Definition subscript {A} (o : option (list A)) (i : nat) : result A :=
  match o with
  | Some l => getitem l i
  | None => Raise TypeError
  end.

End Py.

Import Py.

Declare Scope py_scope.
Delimit Scope py_scope with py.
Notation "x <- c ;; k" := (bind c (fun x => k))
  (at level 100, c at next level, right associativity) : py_scope.
Notation "c ;; k" := (bind c (fun _ => k))
  (at level 100, right associativity) : py_scope.

(** ** The tensor library *)

Module Torch.

Definition Tensor1 := list R.
Definition Tensor2 := list Tensor1.
Definition Tensor3 := list Tensor2.

Fixpoint zip_with {A B C} (f : A -> B -> C) (l : list A) (m : list B) : list C :=
  match l, m with
  | x :: l', y :: m' => f x y :: zip_with f l' m'
  | _, _ => []
  end.

Definition rsum (l : list R) : R := fold_right Rplus 0%R l.

(** Element-wise product and quotient of tensors of one shape. *)
Definition mul3 : Tensor3 -> Tensor3 -> Tensor3 :=
  zip_with (zip_with (zip_with Rmult)).

Definition div2 : Tensor2 -> Tensor2 -> Tensor2 :=
  zip_with (zip_with Rdiv).

(** [torch.sum(t, 1)] of a tensor of shape [B, L, d]. *)
Definition sum1 (d : nat) (t : Tensor3) : Tensor2 :=
  map (fold_right (zip_with Rplus) (repeat 0%R d)) t.

(** [torch.clamp(t, min=m)] *)
Definition clamp_min (t : Tensor2) (m : R) : Tensor2 :=
  map (map (fun x => Rmax x m)) t.

(** [torch.cat(ts, dim=0)]; an empty list of tensors is refused. *)
Definition cat (ts : list Tensor2) : result Tensor2 :=
  match ts with
  | [] => Raise RuntimeError
  | _ :: _ => Ok (concat ts)
  end.

Definition dot (u v : Tensor1) : R := rsum (zip_with Rmult u v).

Definition norm2 (v : Tensor1) : R := sqrt (dot v v).

(** [torch.nn.functional.normalize(x, p=2, dim=1)], whose default [eps] is
    [1e-12]: each row is divided by [max(norm, eps)]. *)
Definition normalize_row (v : Tensor1) : Tensor1 :=
  map (fun a => (a / Rmax (norm2 v) 1e-12)%R) v.

Definition normalize (x : Tensor2) : Tensor2 := map normalize_row x.

Definition column (j : nat) (x : Tensor2) : Tensor1 :=
  map (fun row => nth j row 0%R) x.

(** [x.transpose(0, 1)] of a tensor of shape [n, d]. *)
Definition transpose (d : nat) (x : Tensor2) : Tensor2 :=
  map (fun j => column j x) (seq 0 d).

(** [torch.mm(a, b)]: [a] of shape [q, d], [b] of shape [d, n] with [d > 0];
    other inner dimensions are refused. *)
Definition mm (a b : Tensor2) : result Tensor2 :=
  if forallb (fun row => length row =? length b) a
  then Ok (map (fun row =>
                  map (fun j => dot row (column j b))
                      (seq 0 (length (hd [] b)))) a)
  else Raise RuntimeError.

Fixpoint argmax_from (best_ix : nat) (best : R) (ix : nat) (l : list R) : nat :=
  match l with
  | [] => best_ix
  | x :: l' =>
      if Rlt_dec best x then argmax_from ix x (S ix) l'
      else argmax_from best_ix best (S ix) l'
  end.

(** [t.argmax()] of a one-dimensional tensor: the index of the first
    maximal value; an empty tensor is refused. *)
Definition argmax (t : Tensor1) : result nat :=
  match t with
  | [] => Raise IndexError
  | x :: l => Ok (argmax_from 0 x 1 l)
  end.

End Torch.

Import Torch.

(** ** The external embedding provider *)

Record BatchEncoding : Type := {
  input_ids : list (list nat);
  attention_mask : list (list Z)
}.

(** What [AutoTokenizer.from_pretrained] and [AutoModel.from_pretrained]
    return.  [tokenize] gives the token ids of one text (special tokens
    and truncation included); [model enc b t d] is the entry [b, t, d] of
    the last hidden state for the padded batch [enc], whose shape is
    [batch, longest, hidden_size]. *)
Class EmbeddingProvider : Type := {
  tokenize : string -> list nat;
  pad_token_id : nat;
  hidden_size : positive;
  model : BatchEncoding -> nat -> nat -> nat -> R
}.

Section QAModel.

Context {P : EmbeddingProvider}.

Definition dim : nat := Pos.to_nat hidden_size.

(** ** [QAEmbedder] *)

(** [self.tokenizer(texts, padding=True, truncation=True, return_tensors='pt')]:
    every row is padded on the right to the longest of the batch. *)
Definition tokenizer (texts : list string) : BatchEncoding :=
  let ids := map tokenize texts in
  let longest := list_max (map (@length nat) ids) in
  {| input_ids :=
       map (fun t => t ++ repeat pad_token_id (longest - length t)) ids;
     attention_mask :=
       map (fun t => repeat 1%Z (length t) ++ repeat 0%Z (longest - length t))
           ids |}.

(** The first component of the transformer's output on [enc]. *)
Definition last_hidden_state (enc : BatchEncoding) : Tensor3 :=
  map (fun b =>
         map (fun t => map (fun d => model enc b t d) (seq 0 dim))
             (seq 0 (length (hd [] (input_ids enc)))))
      (seq 0 (length (input_ids enc))).

(** The divisor of [_mean_pooling]:
    [torch.clamp(input_mask_expanded.sum(1), min=1e-9)]. *)
Definition pooling_divisor (input_mask_expanded : Tensor3) : Tensor2 :=
  clamp_min (sum1 dim input_mask_expanded) 1e-9.

Definition _mean_pooling (token_embeddings : Tensor3)
    (mask : list (list Z)) : Tensor2 :=
  let input_mask_expanded := map (map (fun m => repeat (IZR m) dim)) mask in
  div2 (sum1 dim (mul3 token_embeddings input_mask_expanded))
       (pooling_divisor input_mask_expanded).

(** The body of the loop of [get_embeddings], on one chunk [texts]. *)
Definition embed_batch (texts : list string) : Tensor2 :=
  let encoded_input := tokenizer texts in
  let model_output := last_hidden_state encoded_input in
  _mean_pooling model_output (attention_mask encoded_input).

Definition get_embeddings (questions : list string) (batch : Z)
  : result Tensor2 :=
  bind_result (range (length questions) batch) (fun starts =>
  cat (map (fun i => embed_batch (slice questions i (i + Z.to_nat batch)))
           starts)).

(** ** [QASearcher] *)

Record QASearcher : Type := {
  answers : option (list string);
  questions : option (list string);
  question_embeddings : option Tensor2
}.

(** The object after [__init__]. *)
Definition init : QASearcher :=
  {| answers := None; questions := None; question_embeddings := None |}.

Definition set_answers (v : option (list string)) (s : QASearcher) :=
  {| answers := v; questions := questions s;
     question_embeddings := question_embeddings s |}.

Definition set_questions (v : option (list string)) (s : QASearcher) :=
  {| answers := answers s; questions := v;
     question_embeddings := question_embeddings s |}.

Definition set_question_embeddings (v : option Tensor2) (s : QASearcher) :=
  {| answers := answers s; questions := questions s;
     question_embeddings := v |}.

Record Answer : Type := {
  orig_q : string;
  best_q : string;
  best_a : string
}.

Local Open Scope py_scope.

Definition get_q_embeddings (qs : list string) : M QASearcher Tensor2 :=
  question_embeddings <- lift (get_embeddings qs 32) ;;
  ret (transpose dim (normalize question_embeddings)).

Definition set_context_qa (qs ans : list string) : M QASearcher unit :=
  write (set_answers (Some ans)) ;;
  write (set_questions (Some qs)) ;;
  e <- get_q_embeddings qs ;;
  write (set_question_embeddings (Some e)).

Definition cosine_similarity (qs : list string) (batch : Z)
  : M QASearcher Tensor2 :=
  emb <- lift (get_embeddings qs batch) ;;
  stored <- read question_embeddings ;;
  match stored with
  | None => raise TypeError
  | Some e => lift (mm (normalize emb) e)
  end.

Definition get_answers (qs : list string) (batch : Z)
  : M QASearcher (list Answer) :=
  similarity <- cosine_similarity qs batch ;;
  for_each (fun i =>
      row <- lift (getitem similarity i) ;;
      best_ix <- lift (argmax row) ;;
      context_q <- read questions ;;
      bq <- lift (subscript context_q best_ix) ;;
      context_a <- read answers ;;
      ba <- lift (subscript context_a best_ix) ;;
      oq <- lift (getitem qs i) ;;
      ret {| orig_q := oq; best_q := bq; best_a := ba |})
    (seq 0 (length similarity)).

(** ** Notions used by the statements *)

(** The vector the embedder gives a text that is alone in its chunk. *)
Definition embed_one (text : string) : Tensor1 := hd [] (embed_batch [text]).

(** The number of tokens of text [b] of a chunk. *)
Definition token_count (texts : list string) (b : nat) : nat :=
  length (tokenize (nth b texts ""%string)).

(** The mean of the token vectors [f 0], ..., [f (n - 1)], with the
    divisor of [_mean_pooling]. *)
Definition masked_mean (f : nat -> nat -> R) (n : nat) : Tensor1 :=
  map (fun d => (rsum (map (fun t => f t d) (seq 0 n)) / Rmax (INR n) 1e-9)%R)
      (seq 0 dim).

(** The provider's output at the real tokens of a text does not depend on
    the other texts of the chunk, hence not on the padding. *)
Definition padding_invariant : Prop :=
  forall texts b t d,
    b < length texts ->
    t < length (tokenize (nth b texts ""%string)) ->
    d < dim ->
    model (tokenizer texts) b t d
    = model (tokenizer [nth b texts ""%string]) 0 t d.

(** The scores of a normalised query vector against the normalised rows
    [e] of the context. *)
Definition similarity_row (q : Tensor1) (e : Tensor2) : Tensor1 :=
  map (fun j => dot q (nth j e [])) (seq 0 (length e)).

(** The index [argmax] returns on a row that is not empty. *)
Definition best_index (row : Tensor1) : nat :=
  match argmax row with
  | Ok k => k
  | Raise _ => 0
  end.

(** [k] is the first index below [n] at which [f] is maximal. *)
Definition first_max (f : nat -> R) (n k : nat) : Prop :=
  k < n /\
  (forall j, j < n -> (f j <= f k)%R) /\
  (forall j, j < k -> (f j < f k)%R).

(** The object holds the context [qs], [ans] with the pooled vectors [x]. *)
Definition holds_context (s : QASearcher) (qs ans : list string)
    (x : Tensor2) : Prop :=
  questions s = Some qs /\
  answers s = Some ans /\
  question_embeddings s = Some (transpose dim (normalize x)) /\
  get_embeddings qs 32 = Ok x.

End QAModel.

(** ** Two providers used to run the program on concrete inputs *)

Module Toy.

Definition char_codes (s : string) : list nat :=
  map nat_of_ascii (list_ascii_of_string s).

Definition token_at (enc : BatchEncoding) (b t : nat) : nat :=
  nth t (nth b (input_ids enc) []) 0.

Definition mask_at (enc : BatchEncoding) (b t : nat) : Z :=
  nth t (nth b (attention_mask enc) []) 0%Z.

(** Two coordinates per token, read off the character code; the value at
    a padded position is arbitrary and not zero. *)
Definition codes : EmbeddingProvider :=
  {| tokenize := char_codes;
     pad_token_id := 0;
     hidden_size := 2%positive;
     model := fun enc b t d =>
       if (mask_at enc b t =? 1)%Z then INR (token_at enc b t + d) else 7%R |}.

(** One coordinate per token: the letter a (code 97) has a tiny vector,
    every other character the vector 1. *)
Definition tiny : EmbeddingProvider :=
  {| tokenize := char_codes;
     pad_token_id := 0;
     hidden_size := 1%positive;
     model := fun enc b t d =>
       if (mask_at enc b t =? 1)%Z
       then (if token_at enc b t =? 97 then 1e-13%R else 1%R)
       else 7%R |}.

End Toy.

(** ** The cells of the tutorial *)

Module Tutorial.

Section Cells.

Context {P : EmbeddingProvider}.

(** The function [mean_pooling] of the notebook, outside any class. *)
Definition mean_pooling (token_embeddings : Tensor3)
    (mask : list (list Z)) : Tensor2 :=
  let input_mask_expanded := map (map (fun m => repeat (IZR m) dim)) mask in
  div2 (sum1 dim (mul3 token_embeddings input_mask_expanded))
       (clamp_min (sum1 dim input_mask_expanded) 1e-9).

(** The function [get_embeddings(questions, tokenizer, model)] of the
    notebook: one call of the tokenizer and of the transformer on all the
    questions; the tokenizer and the transformer are those of [P]. *)
Definition get_embeddings (questions : list string) : Tensor2 :=
  let encoded_input := tokenizer questions in
  let model_output := last_hidden_state encoded_input in
  mean_pooling model_output (attention_mask encoded_input).


End Cells.

End Tutorial.

(** ** The data set and [get_qa] *)

Module Squad.

(** The keys the function reads, as records: a key cannot be missing. *)
Record AnswerText : Type := { text : string }.

Record Qas : Type := {
  question : string;
  is_impossible : bool;
  answers : list AnswerText
}.

Record Paragraph : Type := { qas : list Qas }.

Record Article : Type := {
  title : string;
  paragraphs : list Paragraph
}.

Record Dataset : Type := { data : list Article }.

(** A [for] loop that updates the accumulator [acc] and may raise. *)
Fixpoint for_acc {A B} (body : B -> A -> result B) (l : list A) (acc : B)
  : result B :=
  match l with
  | [] => Ok acc
  | x :: l' => bind_result (body acc x) (for_acc body l')
  end.

(** The body of the innermost loop, on the lists [q] and [a]. *)
Definition append_qa (acc : list string * list string) (qa : Qas)
  : result (list string * list string) :=
  if is_impossible qa then Ok acc
  else
    let q := fst acc ++ [question qa] in
    bind_result (getitem (answers qa) 0) (fun first =>
    Ok (q, snd acc ++ [text first])).

(** The loop over the articles; [None] is the value of a call that falls
    off the end of the function. *)
Fixpoint get_qa_from (topic : string) (articles : list Article)
  : result (option (list string * list string)) :=
  match articles with
  | [] => Ok None
  | d :: articles' =>
      if String.eqb (title d) topic
      then bind_result
             (for_acc (fun acc paragraph => for_acc append_qa (qas paragraph) acc)
                      (paragraphs d) ([], []))
             (fun qa => Ok (Some qa))
      else get_qa_from topic articles'
  end.

Definition get_qa (topic : string) (d : Dataset)
  : result (option (list string * list string)) :=
  get_qa_from topic (data d).

(** Notions for the statements: a question that is not marked impossible,
    one that has an answer, and the text of its first answer. *)
Definition possible (qa : Qas) : bool := negb (is_impossible qa).

Definition answered (qa : Qas) : bool :=
  match answers qa with
  | [] => false
  | _ :: _ => true
  end.

Definition first_text (qa : Qas) : string :=
  text (hd {| text := EmptyString |} (answers qa)).

End Squad.

(** ** Loading the pretrained model: the first methods of [QAEmbedder] *)

Module Loading.

Section Pretrained.

(** The transformer, the tokenizer, and the two calls of
    [from_pretrained], which may raise. *)
Variables Mdl Tok : Type.
Variable auto_model : string -> result Mdl.
Variable auto_tokenizer : string -> result Tok.

Record QAEmbedder : Type := {
  model : option Mdl;
  tokenizer : option Tok;
  model_name : string
}.

Definition get_model (name : string) : result (Mdl * Tok) :=
  bind_result (auto_model name) (fun m =>
  bind_result (auto_tokenizer name) (fun t =>
  Ok (m, t))).

(** The argument is not read: the method loads [self.model_name]. *)
Definition set_model (name : string) : M QAEmbedder unit :=
  bind (read model_name) (fun own =>
  bind (lift (get_model own)) (fun loaded =>
  write (fun e => {| model := Some (fst loaded);
                     tokenizer := Some (snd loaded);
                     model_name := model_name e |}))).

(** The constructor: an exception of [set_model] leaves no object. *)
Definition __init__ (name : string) : result QAEmbedder :=
  match set_model name {| model := None; tokenizer := None;
                          model_name := name |} with
  | (e, Ok _) => Ok e
  | (_, Raise x) => Raise x
  end.

End Pretrained.

End Loading.

(** ** The two requests of the service *)

Definition KeyError : exn := "KeyError"%string.

(** The decoded body of a request: a dictionary whose values are lists
    of strings. *)
Definition Body : Type := string -> option (list string).

(** [data[key]] *)
Definition item (data : Body) (key : string) : result (list string) :=
  match data key with
  | Some v => Ok v
  | None => Raise KeyError
  end.

Section Service.

Context {P : EmbeddingProvider}.

Local Open Scope py_scope.

(** The handler of [/set_context], run on the searcher of the module. *)
Definition set_context (data : Body) : M QASearcher (list (string * string)) :=
  qs <- lift (item data "questions"%string) ;;
  ans <- lift (item data "answers"%string) ;;
  set_context_qa qs ans ;;
  ret [("message"%string, "Search context set"%string)].

(** The handler of [/get_answer]. *)
Definition get_answer (data : Body) : M QASearcher (list Answer) :=
  qs <- lift (item data "questions"%string) ;;
  get_answers qs 1.

End Service.

(** ** Notions used by the further statements *)

(** The lists of texts the loop of [get_embeddings] hands to the
    tokenizer, one per iteration. *)
Definition chunks {A} (l : list A) (batch : Z) : list (list A) :=
  map (fun i => slice l i (i + Z.to_nat batch))
      (range_from (length l) 0 (length l) (Z.to_nat batch)).

(** ** The same program over the arithmetic of the tensor library

    Which entry is the largest, and whether a division is defined, depend
    on the arithmetic of the tensors.  The module below is the program
    again, written over an interface [Arithmetic]: the element-wise
    operations and the reduction kernels of the library are its fields,
    so nothing is assumed about rounding or about the order in which a
    kernel adds.  The real numbers used above, reals with undefined
    results, and binary32 are instances. *)

Module General.

Class Arithmetic : Type := {
  num : Type;
  (** [mask.float()] on an entry of the attention mask *)
  of_mask : Z -> num;
  (** element-wise product and quotient *)
  mul : num -> num -> num;
  div : num -> num -> num;
  (** [torch.clamp(x, min=c)] on one entry *)
  clamp_min : num -> num -> num;
  (** the square root taken by the 2-norm *)
  sqrt : num -> num;
  (** the kernels that add the entries of a list: the one of [torch.sum]
      along a dimension, the one that accumulates the products of
      [torch.mm], and the one that accumulates the squares of the 2-norm
      taken by [normalize] *)
  sum : list num -> num;
  mm_sum : list num -> num;
  norm_sum : list num -> num;
  (** the comparison of [argmax] *)
  lt : num -> num -> bool;
  (** the constants [1e-9] and [1e-12] *)
  pooling_floor : num;
  normalize_floor : num
}.

Class Provider (A : Arithmetic) : Type := {
  tokenize : string -> list nat;
  pad_token_id : nat;
  hidden_size : positive;
  model : BatchEncoding -> nat -> nat -> nat -> num
}.

Section Program.

Context {A : Arithmetic} {P : Provider A}.

Definition dim : nat := Pos.to_nat hidden_size.

Definition tokenizer (texts : list string) : BatchEncoding :=
  let ids := map tokenize texts in
  let longest := list_max (map (@length nat) ids) in
  {| input_ids :=
       map (fun t => t ++ repeat pad_token_id (longest - length t)) ids;
     attention_mask :=
       map (fun t => repeat 1%Z (length t) ++ repeat 0%Z (longest - length t))
           ids |}.

Definition last_hidden_state (enc : BatchEncoding) : list (list (list num)) :=
  map (fun b =>
         map (fun t => map (fun d => model enc b t d) (seq 0 dim))
             (seq 0 (length (hd [] (input_ids enc)))))
      (seq 0 (length (input_ids enc))).

(** [torch.sum(t, 1)] of a tensor of shape [B, L, dim]: the kernel runs
    over the [L] values of each coordinate. *)
Definition sum1 (t : list (list (list num))) : list (list num) :=
  map (fun rows =>
         map (fun d => sum (map (fun row => nth d row (of_mask 0)) rows))
             (seq 0 dim))
      t.

Definition _mean_pooling (token_embeddings : list (list (list num)))
    (mask : list (list Z)) : list (list num) :=
  let input_mask_expanded := map (map (fun m => repeat (of_mask m) dim)) mask in
  zip_with (zip_with div)
    (sum1 (zip_with (zip_with (zip_with mul))
                    token_embeddings input_mask_expanded))
    (map (map (fun x => clamp_min x pooling_floor))
         (sum1 input_mask_expanded)).

Definition embed_batch (texts : list string) : list (list num) :=
  let encoded_input := tokenizer texts in
  let model_output := last_hidden_state encoded_input in
  _mean_pooling model_output (attention_mask encoded_input).

Definition cat (ts : list (list (list num))) : result (list (list num)) :=
  match ts with
  | [] => Raise RuntimeError
  | _ :: _ => Ok (concat ts)
  end.

Definition get_embeddings (questions : list string) (batch : Z)
  : result (list (list num)) :=
  bind_result (range (length questions) batch) (fun starts =>
  cat (map (fun i => embed_batch (slice questions i (i + Z.to_nat batch)))
           starts)).

(** The 2-norm of a row, as [normalize] takes it. *)
Definition norm (v : list num) : num := sqrt (norm_sum (zip_with mul v v)).

Definition normalize_row (v : list num) : list num :=
  map (fun a => div a (clamp_min (norm v) normalize_floor)) v.

Definition normalize (x : list (list num)) : list (list num) :=
  map normalize_row x.

(** An entry of [torch.mm]: a row against a column. *)
Definition inner (u v : list num) : num := mm_sum (zip_with mul u v).

Definition column (j : nat) (x : list (list num)) : list num :=
  map (fun row => nth j row (of_mask 0)) x.

Definition transpose (x : list (list num)) : list (list num) :=
  map (fun j => column j x) (seq 0 dim).

Definition mm (a b : list (list num)) : result (list (list num)) :=
  if forallb (fun row => length row =? length b) a
  then Ok (map (fun row =>
                  map (fun j => inner row (column j b))
                      (seq 0 (length (hd [] b)))) a)
  else Raise RuntimeError.

Fixpoint argmax_from (best_ix : nat) (best : num) (ix : nat) (l : list num)
  : nat :=
  match l with
  | [] => best_ix
  | x :: l' =>
      if lt best x then argmax_from ix x (S ix) l'
      else argmax_from best_ix best (S ix) l'
  end.

Definition argmax (t : list num) : result nat :=
  match t with
  | [] => Raise IndexError
  | x :: l => Ok (argmax_from 0 x 1 l)
  end.

Record QASearcher : Type := {
  answers : option (list string);
  questions : option (list string);
  question_embeddings : option (list (list num))
}.

Definition init : QASearcher :=
  {| answers := None; questions := None; question_embeddings := None |}.

Definition set_answers (v : option (list string)) (s : QASearcher) :=
  {| answers := v; questions := questions s;
     question_embeddings := question_embeddings s |}.

Definition set_questions (v : option (list string)) (s : QASearcher) :=
  {| answers := answers s; questions := v;
     question_embeddings := question_embeddings s |}.

Definition set_question_embeddings (v : option (list (list num)))
    (s : QASearcher) :=
  {| answers := answers s; questions := questions s;
     question_embeddings := v |}.

Local Open Scope py_scope.

Definition get_q_embeddings (qs : list string)
  : M QASearcher (list (list num)) :=
  question_embeddings <- lift (get_embeddings qs 32) ;;
  ret (transpose (normalize question_embeddings)).

Definition set_context_qa (qs ans : list string) : M QASearcher unit :=
  write (set_answers (Some ans)) ;;
  write (set_questions (Some qs)) ;;
  e <- get_q_embeddings qs ;;
  write (set_question_embeddings (Some e)).

Definition cosine_similarity (qs : list string) (batch : Z)
  : M QASearcher (list (list num)) :=
  emb <- lift (get_embeddings qs batch) ;;
  stored <- read question_embeddings ;;
  match stored with
  | None => raise TypeError
  | Some e => lift (mm (normalize emb) e)
  end.

Definition get_answers (qs : list string) (batch : Z)
  : M QASearcher (list Answer) :=
  similarity <- cosine_similarity qs batch ;;
  for_each (fun i =>
      row <- lift (getitem similarity i) ;;
      best_ix <- lift (argmax row) ;;
      context_q <- read questions ;;
      bq <- lift (subscript context_q best_ix) ;;
      context_a <- read answers ;;
      ba <- lift (subscript context_a best_ix) ;;
      oq <- lift (getitem qs i) ;;
      ret {| orig_q := oq; best_q := bq; best_a := ba |})
    (seq 0 (length similarity)).

(** The handlers of [/set_context] and [/get_answer]. *)
Definition set_context (data : Body) : M QASearcher (list (string * string)) :=
  qs <- lift (item data "questions"%string) ;;
  ans <- lift (item data "answers"%string) ;;
  set_context_qa qs ans ;;
  ret [("message"%string, "Search context set"%string)].

Definition get_answer (data : Body) : M QASearcher (list Answer) :=
  qs <- lift (item data "questions"%string) ;;
  get_answers qs 1.

(** *** What the statements speak of *)

(** The spec's words: a vector divided by its Euclidean norm, the norm
    floored at [1e-12]; and the cosine score of two pooled vectors, the
    dot product of the two normalised vectors. *)
Definition dot_product (u v : list num) : num :=
  mm_sum (zip_with mul u v).

Definition euclidean_norm (v : list num) : num :=
  sqrt (norm_sum (zip_with mul v v)).

Definition l2_normalized (v : list num) : list num :=
  map (fun a => div a (clamp_min (euclidean_norm v) normalize_floor)) v.

Definition cosine (u v : list num) : num :=
  dot_product (l2_normalized u) (l2_normalized v).

(** The spec's words: the token vectors of text [r] of a chunk, each
    weighted by its validity, summed and divided by the count of valid
    tokens floored at [1e-9].  Position [t] is valid when it is below the
    number of tokens of text [r]. *)
Definition pooled (texts : list string) (r : nat) : list num :=
  let enc := tokenizer texts in
  let longest := list_max (map (@length nat) (map tokenize texts)) in
  let valid := fun t =>
    of_mask (if t <? length (tokenize (nth r texts ""%string)) then 1 else 0) in
  map (fun d =>
         div (sum (map (fun t => mul (model enc r t d) (valid t))
                       (seq 0 longest)))
             (clamp_min (sum (map valid (seq 0 longest))) pooling_floor))
      (seq 0 dim).

(** The pooled vector of text [i] of a list embedded in chunks of [batch]
    texts: text [i] is text [i mod batch] of the chunk that starts at
    [batch * (i / batch)]. *)
Definition chunk_of (texts : list string) (batch : Z) (i : nat) : list string :=
  let b := Z.to_nat batch in
  slice texts (b * (i / b)) (b * (i / b) + b).

Definition embedded_row (texts : list string) (batch : Z) (i : nat)
  : list num :=
  pooled (chunk_of texts batch i) (i mod Z.to_nat batch).

(** The pooled vector of a text does not depend on the other texts of
    its chunk. *)
Definition chunk_independent : Prop :=
  forall texts r,
    r < length texts -> pooled texts r = pooled [nth r texts ""%string] 0.

(** [k] is the first index below [n] that no entry exceeds. *)
Definition first_max (f : nat -> num) (n k : nat) : Prop :=
  k < n /\
  (forall j, j < n -> lt (f k) (f j) = false) /\
  (forall j, j < k -> lt (f j) (f k) = true).

(** The scores of a normalised query vector against the normalised rows
    [e] of the context, and the index [argmax] returns on a row. *)
Definition score_row (q : list num) (e : list (list num)) : list num :=
  map (fun j => inner q (nth j e [])) (seq 0 (length e)).

Definition best_index (row : list num) : nat :=
  match argmax row with
  | Ok k => k
  | Raise _ => 0
  end.

(** On the entries of [l] the comparison is a strict weak order: this
    fails as soon as an entry is not comparable with the others, as NaN. *)
Definition ordered_row (l : list num) : bool :=
  forallb (fun a =>
    negb (lt a a) &&
    forallb (fun b =>
      forallb (fun c =>
        implb (lt a b && lt b c) (lt a c) &&
        implb (lt a b) (lt a c || lt c b)) l) l) l.


End Program.

End General.

(** *** Three arithmetics *)

(** The real numbers of the first part of this file. *)
Definition real_arithmetic : General.Arithmetic :=
  {| General.num := R;
     General.of_mask := IZR;
     General.mul := Rmult;
     General.div := Rdiv;
     General.clamp_min := Rmax;
     General.sqrt := sqrt;
     General.sum := rsum;
     General.mm_sum := rsum;
     General.norm_sum := rsum;
     General.lt := fun a b => if Rlt_dec a b then true else false;
     General.pooling_floor := 1e-9%R;
     General.normalize_floor := 1e-12%R |}.

Definition real_provider (P : EmbeddingProvider)
  : General.Provider real_arithmetic :=
  @General.Build_Provider real_arithmetic
    tokenize pad_token_id hidden_size
    (fun enc b t d => model enc b t d : @General.num real_arithmetic).

(** A searcher of the first part, read as a searcher over the reals. *)
Definition general_searcher (s : QASearcher)
  : @General.QASearcher real_arithmetic :=
  @General.Build_QASearcher real_arithmetic
    (answers s) (questions s) (question_embeddings s).

(** Reals with undefined results: [None] stands for what a division by
    zero gives (an infinity or NaN) and for everything computed from it. *)
Module Checked.

Definition lift2 (f : R -> R -> R) (x y : option R) : option R :=
  match x, y with
  | Some a, Some b => Some (f a b)
  | _, _ => None
  end.

Definition div (x y : option R) : option R :=
  match x, y with
  | Some a, Some b => if Req_EM_T b 0%R then None else Some (a / b)%R
  | _, _ => None
  end.

Fixpoint all (l : list (option R)) : option (list R) :=
  match l with
  | [] => Some []
  | x :: l' =>
      match x, all l' with
      | Some a, Some m => Some (a :: m)
      | _, _ => None
      end
  end.

Definition sum (l : list (option R)) : option R := option_map rsum (all l).

Definition sqrt (x : option R) : option R := option_map R_sqrt.sqrt x.

Definition lt (x y : option R) : bool :=
  match x, y with
  | Some a, Some b => if Rlt_dec a b then true else false
  | _, _ => false
  end.

Definition arithmetic : General.Arithmetic :=
  {| General.num := option R;
     General.of_mask := fun m => Some (IZR m);
     General.mul := lift2 Rmult;
     General.div := div;
     General.clamp_min := lift2 Rmax;
     General.sqrt := sqrt;
     General.sum := sum;
     General.mm_sum := sum;
     General.norm_sum := sum;
     General.lt := lt;
     General.pooling_floor := Some 1e-9%R;
     General.normalize_floor := Some 1e-12%R |}.


End Checked.

(** IEEE binary32, rounding to nearest even, with kernels that add from
    left to right. *)
Module Binary32.

Definition of_Z (z : Z) : spec_float := binary_normalize 24 128 z 0 false.

Definition add : spec_float -> spec_float -> spec_float := SFadd 24 128.
Definition mul : spec_float -> spec_float -> spec_float := SFmul 24 128.
Definition div : spec_float -> spec_float -> spec_float := SFdiv 24 128.

Definition sum (l : list spec_float) : spec_float := fold_left add l (of_Z 0).

Definition sqrt : spec_float -> spec_float := SFsqrt 24 128.

Definition clamp_min (x c : spec_float) : spec_float :=
  if SFltb x c then c else x.

(** The comparison of [argmax]: NaN counts as the greatest value. *)
Definition lt (x y : spec_float) : bool :=
  match x, y with
  | S754_nan, _ => false
  | _, S754_nan => true
  | _, _ => SFltb x y
  end.

(** The place of a number in the order of [lt]: the class (negative
    infinity, negative, zero, positive, positive infinity, NaN), then the
    exponent and the mantissa, counted downwards for a negative number. *)
Definition key (x : spec_float) : Z * Z * Z :=
  match x with
  | S754_infinity true => (0, 0, 0)
  | S754_finite true m e => (1, - e, - Zpos m)
  | S754_zero _ => (2, 0, 0)
  | S754_finite false m e => (3, e, Zpos m)
  | S754_infinity false => (4, 0, 0)
  | S754_nan => (5, 0, 0)
  end%Z.

Definition key_lt (p q : Z * Z * Z) : Prop :=
  (fst (fst p) < fst (fst q) \/
   (fst (fst p) = fst (fst q) /\
    (snd (fst p) < snd (fst q) \/
     (snd (fst p) = snd (fst q) /\ snd p < snd q))))%Z.


(** Not negative: a zero, finite number or infinity with the sign bit
    clear, or NaN. *)
Definition nonneg (x : spec_float) : bool :=
  match x with
  | S754_zero s | S754_infinity s | S754_finite s _ _ => negb s
  | S754_nan => true
  end.


(** The binary32 numbers nearest to [1e-9] and [1e-12]. *)
Definition floor_1e_9 : spec_float := S754_finite false 9007199 (-53).
Definition floor_1e_12 : spec_float := S754_finite false 9223372 (-63).

Definition arithmetic : General.Arithmetic :=
  {| General.num := spec_float;
     General.of_mask := of_Z;
     General.mul := mul;
     General.div := div;
     General.clamp_min := clamp_min;
     General.sqrt := sqrt;
     General.sum := sum;
     General.mm_sum := sum;
     General.norm_sum := sum;
     General.lt := lt;
     General.pooling_floor := floor_1e_9;
     General.normalize_floor := floor_1e_12 |}.

(** The provider [Toy.codes] in binary32. *)
Definition codes : General.Provider arithmetic :=
  @General.Build_Provider arithmetic Toy.char_codes 0 2%positive
    (fun enc b t d =>
       (if (Toy.mask_at enc b t =? 1)%Z
        then of_Z (Z.of_nat (Toy.token_at enc b t + d))
        else of_Z 7) : @General.num arithmetic).

End Binary32.

(** * Properties *)

(** ** Lists *)

Section ListFacts.

Context {A B C : Type}.

Lemma zip_with_map (f : A -> B -> C) {X} (g : X -> A) (h : X -> B) (l : list X) :
  zip_with f (map g l) (map h l) = map (fun x => f (g x) (h x)) l.
Proof.
  induction l as [|x l IH]; simpl; [reflexivity|]. now rewrite IH.
Qed.

Lemma map_nth_seq (g : A -> B) (l : list A) (d : A) :
  map g l = map (fun i => g (nth i l d)) (seq 0 (length l)).
Proof.
  induction l as [|x l IH]; simpl; [reflexivity|].
  f_equal. rewrite <- seq_shift, map_map. exact IH.
Qed.

Lemma repeat_map_seq (c : A) (n : nat) :
  repeat c n = map (fun _ => c) (seq 0 n).
Proof.
  generalize 0. induction n as [|n IH]; intro s; simpl; [reflexivity|].
  now rewrite <- IH.
Qed.

End ListFacts.

Lemma nth_map_seq {A} (f : nat -> A) (n i : nat) (d : A) :
  i < n -> nth i (map f (seq 0 n)) d = f i.
Proof.
  intro H. rewrite (nth_indep _ d (f 0)) by (now rewrite length_map, length_seq).
  rewrite (map_nth f (seq 0 n) 0 i). now rewrite seq_nth.
Qed.

Lemma list_self_seq {A} (l : list A) (d : A) :
  l = map (fun i => nth i l d) (seq 0 (length l)).
Proof.
  rewrite <- (map_id l) at 1. exact (map_nth_seq (fun x => x) l d).
Qed.

(** ** Ranges and slices *)

Lemma range_from_nonempty fuel i stop step :
  i < stop -> 0 < fuel -> range_from fuel i stop step <> [].
Proof.
  intros Hi Hf. destruct fuel as [|f]; [lia|]. simpl.
  apply Nat.ltb_lt in Hi. now rewrite Hi.
Qed.

Lemma skipn_skipn_add {A} (l : list A) (i b : nat) :
  skipn b (skipn i l) = skipn (i + b) l.
Proof.
  revert l. induction i as [|i IH]; intro l; simpl.
  - reflexivity.
  - destruct l as [|x l]; [now rewrite skipn_nil|]. apply IH.
Qed.

(** The chunks cut along a range are the list itself, in order. *)
Lemma chunks_concat {A} (l : list A) (step : nat) :
  0 < step ->
  forall fuel i,
    length l - i <= fuel ->
    concat (map (fun i => slice l i (i + step))
                (range_from fuel i (length l) step))
    = skipn i l.
Proof.
  intros Hs fuel. induction fuel as [|f IH]; intros i Hf; simpl.
  - symmetry. apply skipn_all2. lia.
  - destruct (Nat.ltb_spec i (length l)) as [Hi|Hi].
    + simpl. rewrite IH by lia. unfold slice.
      replace (i + step - i) with step by lia.
      rewrite <- skipn_skipn_add. apply firstn_skipn.
    + simpl. symmetry. apply skipn_all2. lia.
Qed.

Lemma range_positive (n : nat) (step : Z) :
  (0 < step)%Z -> range n step = Ok (range_from n 0 n (Z.to_nat step)).
Proof.
  intro H. unfold range.
  destruct (Z.eqb_spec step 0); [lia|].
  destruct (Z.ltb_spec step 0); [lia|]. reflexivity.
Qed.

(** ** Sums of tensors *)

Lemma sum_rows (d : nat) (g : nat -> nat -> R) (ts : list nat) :
  fold_right (zip_with Rplus) (repeat 0%R d)
             (map (fun t => map (fun j => g t j) (seq 0 d)) ts)
  = map (fun j => rsum (map (fun t => g t j) ts)) (seq 0 d).
Proof.
  induction ts as [|t ts IH]; simpl.
  - apply repeat_map_seq.
  - rewrite IH. apply zip_with_map.
Qed.

Lemma map_const_seq {A} (c : A) (s k : nat) :
  map (fun _ => c) (seq s k) = repeat c k.
Proof.
  revert s. induction k as [|k IH]; intro s; simpl; [reflexivity|].
  now rewrite IH.
Qed.

Lemma mask_row_indicator (n k : nat) :
  repeat 1%Z n ++ repeat 0%Z k
  = map (fun t => if t <? n then 1%Z else 0%Z) (seq 0 (n + k)).
Proof.
  rewrite seq_app, map_app. f_equal.
  - rewrite <- (map_const_seq 1%Z 0 n). apply map_ext_in. intros t Ht.
    apply in_seq in Ht. destruct (Nat.ltb_spec t n); [reflexivity | lia].
  - rewrite <- (map_const_seq 0%Z (0 + n) k). apply map_ext_in. intros t Ht.
    apply in_seq in Ht. destruct (Nat.ltb_spec t n); [lia | reflexivity].
Qed.

Lemma rsum_app (l m : list R) : rsum (l ++ m) = (rsum l + rsum m)%R.
Proof.
  unfold rsum. induction l as [|x l IH]; simpl; [lra|]. rewrite IH. lra.
Qed.

Lemma rsum_zero (l : list R) : Forall (fun x => x = 0%R) l -> rsum l = 0%R.
Proof.
  unfold rsum. induction 1 as [|x l Hx _ IH]; simpl; [reflexivity|].
  rewrite IH, Hx. lra.
Qed.

Lemma rsum_masked (g : nat -> R) (n k : nat) :
  rsum (map (fun t => (g t * IZR (if t <? n then 1 else 0))%R) (seq 0 (n + k)))
  = rsum (map g (seq 0 n)).
Proof.
  rewrite seq_app, map_app, rsum_app.
  rewrite (@rsum_zero (map _ (seq (0 + n) k))).
  - rewrite Rplus_0_r. f_equal. apply map_ext_in. intros t Ht.
    apply in_seq in Ht. destruct (Nat.ltb_spec t n); [lra | lia].
  - apply Forall_forall. intros x Hx. apply in_map_iff in Hx.
    destruct Hx as [t [<- Ht]]. apply in_seq in Ht.
    destruct (Nat.ltb_spec t n); [lia | lra].
Qed.

Lemma rsum_const (c : R) (s n : nat) :
  rsum (map (fun _ => c) (seq s n)) = (INR n * c)%R.
Proof.
  revert s. induction n as [|n IH]; intro s.
  - simpl. lra.
  - rewrite S_INR. cbn [seq map rsum fold_right]. fold (rsum (map (fun _ => c) (seq (S s) n))).
    rewrite IH. lra.
Qed.

Lemma rsum_mask (n k : nat) :
  rsum (map (fun t => IZR (if t <? n then 1 else 0)) (seq 0 (n + k))) = INR n.
Proof.
  rewrite <- (Rmult_1_r (INR n)), <- (rsum_const 1 0 n), <- (rsum_masked (fun _ => 1%R) n k).
  f_equal. apply map_ext. intro t. lra.
Qed.

(** ** The embedder *)

Section Embedder.

Context {P : EmbeddingProvider}.

Lemma dim_pos : 0 < dim.
Proof. unfold dim. lia. Qed.

Lemma tokens_le_longest (texts : list string) (b : nat) :
  b < length texts ->
  token_count texts b <= list_max (map (@length nat) (map tokenize texts)).
Proof.
  intro Hb.
  assert (H : Forall (fun k => k <= list_max (map (@length nat) (map tokenize texts)))
                     (map (@length nat) (map tokenize texts)))
    by (apply list_max_le; lia).
  rewrite Forall_forall in H. apply H. unfold token_count.
  rewrite map_map. apply in_map_iff. exists (nth b texts ""%string).
  split; [reflexivity | now apply nth_In].
Qed.

Lemma tokenizer_rows (texts : list string) :
  length (input_ids (tokenizer texts)) = length texts.
Proof. unfold tokenizer. simpl. now rewrite !length_map. Qed.

Lemma tokenizer_longest (texts : list string) :
  texts <> [] ->
  length (hd [] (input_ids (tokenizer texts)))
  = list_max (map (@length nat) (map tokenize texts)).
Proof.
  intro Hne. destruct texts as [|s texts]; [congruence|].
  pose proof (tokens_le_longest (s :: texts) (b := 0)) as H.
  unfold tokenizer. cbn [input_ids map hd]. rewrite length_app, repeat_length.
  unfold token_count in H. cbn [nth length map] in H. specialize (H ltac:(lia)).
  cbn [map]. lia.
Qed.

(** Row [b] of a chunk is the mean of the vectors of the real tokens of
    text [b]: the padded positions do not contribute. *)
Lemma embed_batch_rows (texts : list string) :
  embed_batch texts
  = map (fun b => masked_mean (model (tokenizer texts) b) (token_count texts b))
        (seq 0 (length texts)).
Proof.
  destruct (list_eq_dec string_dec texts []) as [->|Hne]; [reflexivity|].
  unfold embed_batch, _mean_pooling, pooling_divisor, last_hidden_state.
  rewrite tokenizer_rows, (tokenizer_longest Hne).
  set (enc := tokenizer texts).
  set (Lg := list_max (map (@length nat) (map tokenize texts))).
  assert (HME : map (map (fun m => repeat (IZR m) dim)) (attention_mask enc)
    = map (fun b => map (fun t => map (fun _ : nat =>
               IZR (if t <? token_count texts b then 1 else 0)) (seq 0 dim))
             (seq 0 Lg)) (seq 0 (length texts))).
  { unfold enc, tokenizer. cbn [attention_mask]. fold Lg.
    rewrite !map_map. rewrite (map_nth_seq _ texts ""%string).
    apply map_ext_in. intros b Hb. apply in_seq in Hb. fold (token_count texts b).
    rewrite mask_row_indicator.
    pose proof (@tokens_le_longest texts b ltac:(lia)) as Hle. fold Lg in Hle.
    replace (token_count texts b + (Lg - token_count texts b)) with Lg by lia.
    rewrite map_map. apply map_ext. intro t. apply repeat_map_seq. }
  rewrite HME. unfold mul3, div2, sum1, clamp_min.
  rewrite zip_with_map, !map_map, zip_with_map.
  apply map_ext_in. intros b Hb. apply in_seq in Hb.
  pose proof (@tokens_le_longest texts b ltac:(lia)) as Hle. fold Lg in Hle.
  rewrite zip_with_map.
  erewrite (map_ext _ _ (fun t => zip_with_map Rmult _ _ (seq 0 dim))).
  rewrite (sum_rows dim (fun t d => (model enc b t d * IZR (if t <? token_count texts b then 1 else 0))%R)).
  rewrite (sum_rows dim (fun t (_ : nat) => IZR (if t <? token_count texts b then 1 else 0))).
  rewrite map_map, zip_with_map. unfold masked_mean.
  apply map_ext. intro d.
  replace Lg with (token_count texts b + (Lg - token_count texts b)) by lia.
  rewrite rsum_mask.
  rewrite (rsum_masked (fun t => model enc b t d)). reflexivity.
Qed.

Lemma masked_mean_ext (f g : nat -> nat -> R) (n : nat) :
  (forall t d, t < n -> d < dim -> f t d = g t d) ->
  masked_mean f n = masked_mean g n.
Proof.
  intro H. unfold masked_mean. apply map_ext_in. intros d Hd.
  apply in_seq in Hd. f_equal. f_equal. apply map_ext_in. intros t Ht.
  apply in_seq in Ht. apply H; lia.
Qed.

Lemma embed_one_eq (s : string) :
  embed_one s = masked_mean (model (tokenizer [s]) 0) (length (tokenize s)).
Proof. unfold embed_one. now rewrite embed_batch_rows. Qed.

Lemma embed_batch_invariant (texts : list string) :
  padding_invariant -> embed_batch texts = map embed_one texts.
Proof.
  intro PI. rewrite embed_batch_rows, (map_nth_seq embed_one texts ""%string).
  apply map_ext_in. intros b Hb. apply in_seq in Hb.
  rewrite embed_one_eq. apply masked_mean_ext. intros t d Ht Hd.
  apply PI; [lia | exact Ht | exact Hd].
Qed.

Lemma length_embed_batch (texts : list string) :
  length (embed_batch texts) = length texts.
Proof. now rewrite embed_batch_rows, length_map, length_seq. Qed.

Lemma width_embed_batch (texts : list string) :
  Forall (fun row => length row = dim) (embed_batch texts).
Proof.
  rewrite embed_batch_rows. apply Forall_forall. intros row Hrow.
  apply in_map_iff in Hrow. destruct Hrow as [b [<- _]].
  unfold masked_mean. now rewrite length_map, length_seq.
Qed.

Lemma chunks_shape (texts : list string) (step : nat) (starts : list nat) :
  let x := concat (map (fun i => embed_batch (slice texts i (i + step))) starts) in
  length x = length (concat (map (fun i => slice texts i (i + step)) starts))
  /\ Forall (fun row => length row = dim) x.
Proof.
  induction starts as [|i starts [IHl IHw]]; cbn zeta; simpl.
  - split; [reflexivity | constructor].
  - split.
    + rewrite !length_app, length_embed_batch. cbn zeta in IHl. now rewrite IHl.
    + apply Forall_app. split; [apply width_embed_batch | exact IHw].
Qed.

(** With a positive [batch] and at least one text the loop runs and the
    chunks are concatenated. *)
Lemma get_embeddings_chunks (texts : list string) (batch : Z) :
  (0 < batch)%Z -> texts <> [] ->
  get_embeddings texts batch
  = Ok (concat (map (fun i => embed_batch (slice texts i (i + Z.to_nat batch)))
                    (range_from (length texts) 0 (length texts) (Z.to_nat batch)))).
Proof.
  intros Hb Hne. unfold get_embeddings. rewrite range_positive by exact Hb.
  cbn [bind_result]. unfold cat.
  assert (Hr : range_from (length texts) 0 (length texts) (Z.to_nat batch) <> []).
  { destruct texts; [congruence|]. apply range_from_nonempty; simpl; lia. }
  destruct (range_from (length texts) 0 (length texts) (Z.to_nat batch));
    [congruence | reflexivity].
Qed.

Lemma get_embeddings_total (texts : list string) (batch : Z) :
  (0 < batch)%Z -> texts <> [] ->
  exists x, get_embeddings texts batch = Ok x
            /\ length x = length texts
            /\ Forall (fun row => length row = dim) x.
Proof.
  intros Hb Hne. eexists. split; [now apply get_embeddings_chunks|].
  destruct (chunks_shape texts (Z.to_nat batch)
              (range_from (length texts) 0 (length texts) (Z.to_nat batch)))
    as [Hl Hw].
  split; [|exact Hw]. rewrite Hl, chunks_concat by lia. reflexivity.
Qed.

(** An empty list of texts, or a batch that is not positive, raises. *)
Lemma get_embeddings_raises (texts : list string) (batch : Z) :
  texts = [] \/ (batch <= 0)%Z ->
  get_embeddings texts batch
  = Raise (if (batch =? 0)%Z then ValueError else RuntimeError).
Proof.
  intro H. unfold get_embeddings, range.
  destruct (Z.eqb_spec batch 0) as [E|E]; [reflexivity|].
  destruct (Z.ltb_spec batch 0) as [L|L]; [reflexivity|].
  destruct H as [-> | H]; [|lia]. reflexivity.
Qed.

Lemma get_embeddings_ok (texts : list string) (batch : Z) (x : Tensor2) :
  get_embeddings texts batch = Ok x ->
  (0 < batch)%Z /\ texts <> [] /\ length x = length texts
  /\ Forall (fun row => length row = dim) x.
Proof.
  intro H.
  assert (Hb : (0 < batch)%Z).
  { destruct (Z.ltb_spec 0 batch) as [L|L]; [exact L|].
    rewrite get_embeddings_raises in H by (right; lia). discriminate. }
  assert (Hne : texts <> []).
  { intro E. rewrite get_embeddings_raises in H by (left; exact E). discriminate. }
  destruct (get_embeddings_total Hb Hne) as [y [Hy [Hl Hw]]].
  rewrite Hy in H. injection H as <-. auto.
Qed.

(** Under padding invariance the vectors do not depend on the batch. *)
Lemma get_embeddings_invariant (texts : list string) (batch : Z) :
  padding_invariant -> (0 < batch)%Z -> texts <> [] ->
  get_embeddings texts batch = Ok (map embed_one texts).
Proof.
  intros PI Hb Hne. rewrite get_embeddings_chunks by assumption. f_equal.
  rewrite (map_ext _ (fun i => map embed_one (slice texts i (i + Z.to_nat batch))))
    by (intro i; now apply embed_batch_invariant).
  rewrite <- (map_map (fun i => slice texts i (i + Z.to_nat batch)) (map embed_one)).
  rewrite <- concat_map, chunks_concat by lia. reflexivity.
Qed.

End Embedder.

(** ** [argmax]: the first maximal entry *)

Lemma argmax_from_spec (l pre : list R) (best_ix : nat) (best : R) :
  best_ix < length pre ->
  nth best_ix pre 0%R = best ->
  (forall j, j < length pre -> (nth j pre 0 <= best)%R) ->
  (forall j, j < best_ix -> (nth j pre 0 < best)%R) ->
  first_max (fun j => nth j (pre ++ l) 0%R) (length (pre ++ l))
            (argmax_from best_ix best (length pre) l).
Proof.
  revert pre best_ix best.
  induction l as [|x l IH]; intros pre best_ix best Hix Hbest Hle Hlt.
  - rewrite app_nil_r. simpl. repeat split.
    + exact Hix.
    + intros j Hj. rewrite Hbest. now apply Hle.
    + intros j Hj. rewrite Hbest. now apply Hlt.
  - assert (Hlen : length (pre ++ [x]) = S (length pre))
      by (rewrite length_app; simpl; lia).
    replace (pre ++ x :: l) with ((pre ++ [x]) ++ l)
      by (now rewrite <- app_assoc).
    simpl argmax_from. rewrite <- Hlen.
    destruct (Rlt_dec best x) as [Hx|Hx].
    + assert (Hnew : nth (length pre) (pre ++ [x]) 0%R = x)
        by (rewrite app_nth2, Nat.sub_diag by lia; reflexivity).
      apply IH.
      * lia.
      * exact Hnew.
      * intros j Hj. destruct (Nat.eq_dec j (length pre)) as [->|Hne].
        -- rewrite Hnew. lra.
        -- rewrite app_nth1 by lia. specialize (Hle j ltac:(lia)). lra.
      * intros j Hj. rewrite app_nth1 by lia. specialize (Hle j ltac:(lia)). lra.
    + apply IH.
      * lia.
      * now rewrite app_nth1 by lia.
      * intros j Hj. destruct (Nat.eq_dec j (length pre)) as [->|Hne].
        -- rewrite app_nth2, Nat.sub_diag by lia. simpl. lra.
        -- rewrite app_nth1 by lia. apply Hle. lia.
      * intros j Hj. rewrite app_nth1 by lia. now apply Hlt.
Qed.

Lemma argmax_spec (t : Tensor1) (k : nat) :
  argmax t = Ok k -> first_max (fun j => nth j t 0%R) (length t) k.
Proof.
  destruct t as [|x l]; simpl; [discriminate|]. intro H. injection H as <-.
  apply (argmax_from_spec l [x] (best_ix := 0) (best := x)); simpl.
  - lia.
  - reflexivity.
  - intros j Hj. replace j with 0 by lia. lra.
  - intros j Hj. lia.
Qed.

Lemma argmax_total (t : Tensor1) : t <> [] -> exists k, argmax t = Ok k.
Proof. destruct t; [congruence|]. intros _. eexists. reflexivity. Qed.

Lemma first_max_unique (f : nat -> R) (n k k' : nat) :
  first_max f n k -> first_max f n k' -> k = k'.
Proof.
  intros [Hk [Hle Hlt]] [Hk' [Hle' Hlt']].
  destruct (Nat.lt_trichotomy k k') as [H|[H|H]]; [|exact H|].
  - specialize (Hlt' k H). specialize (Hle k' Hk'). lra.
  - specialize (Hlt k' H). specialize (Hle' k Hk). lra.
Qed.

(** ** Dot products and normalisation *)

Lemma dot_cons (a b : R) (u v : Tensor1) :
  dot (a :: u) (b :: v) = (a * b + dot u v)%R.
Proof. reflexivity. Qed.

Lemma dot_self_nonneg (u : Tensor1) : (0 <= dot u u)%R.
Proof.
  induction u as [|a u IH]; [unfold dot, rsum; simpl; lra|].
  rewrite dot_cons. nra.
Qed.

Lemma dot_mean_bound (u v : Tensor1) :
  (2 * dot u v <= dot u u + dot v v)%R /\ (- (dot u u + dot v v) <= 2 * dot u v)%R.
Proof.
  revert v. induction u as [|a u IH]; intro v.
  - pose proof (dot_self_nonneg v).
    change (dot [] v) with 0%R. change (dot [] []) with 0%R. split; lra.
  - destruct v as [|b v].
    + pose proof (dot_self_nonneg (a :: u)).
      change (dot (a :: u) []) with 0%R. change (dot [] []) with 0%R. split; lra.
    + rewrite !dot_cons. destruct (IH v).
      pose proof (Rle_0_sqr (a - b)) as Hm. pose proof (Rle_0_sqr (a + b)) as Hp.
      unfold Rsqr in Hm, Hp. split; lra.
Qed.

Lemma dot_scale (c c' : R) (u v : Tensor1) :
  c <> 0%R -> c' <> 0%R ->
  dot (map (fun a => (a / c)%R) u) (map (fun b => (b / c')%R) v)
  = (dot u v / (c * c'))%R.
Proof.
  intros Hc Hc'. revert v. induction u as [|a u IH]; intro v.
  - unfold dot, rsum. simpl. field. auto.
  - destruct v as [|b v].
    + unfold dot, rsum. simpl. field. auto.
    + cbn [map]. rewrite !dot_cons, IH. field. auto.
Qed.

Lemma norm2_nonneg (v : Tensor1) : (0 <= norm2 v)%R.
Proof. apply sqrt_pos. Qed.

Lemma norm2_square (v : Tensor1) : (norm2 v * norm2 v = dot v v)%R.
Proof. apply sqrt_sqrt, dot_self_nonneg. Qed.

Lemma divisor_pos (v : Tensor1) : (0 < Rmax (norm2 v) 1e-12)%R.
Proof.
  pose proof (Rmax_r (norm2 v) 1e-12). lra.
Qed.

Lemma length_normalize_row (v : Tensor1) :
  length (normalize_row v) = length v.
Proof. apply length_map. Qed.

Lemma dot_normalize_row (u v : Tensor1) :
  dot (normalize_row u) (normalize_row v)
  = (dot u v / (Rmax (norm2 u) 1e-12 * Rmax (norm2 v) 1e-12))%R.
Proof.
  pose proof (divisor_pos u). pose proof (divisor_pos v).
  unfold normalize_row. apply dot_scale; lra.
Qed.

(** A normalised row has norm at most one... *)
Lemma normalize_row_le_1 (v : Tensor1) :
  (dot (normalize_row v) (normalize_row v) <= 1)%R.
Proof.
  rewrite dot_normalize_row. pose proof (divisor_pos v) as Hp.
  pose proof (Rmax_l (norm2 v) 1e-12) as Hl.
  pose proof (norm2_nonneg v) as Hn. pose proof (norm2_square v) as Hs.
  apply Rmult_le_reg_r with (Rmax (norm2 v) 1e-12 * Rmax (norm2 v) 1e-12)%R;
    [nra|].
  unfold Rdiv. rewrite Rmult_assoc, Rinv_l by nra. nra.
Qed.

(** ... and exactly one when the norm reaches the floor of [normalize]. *)
Lemma normalize_row_unit (v : Tensor1) :
  (1e-12 <= norm2 v)%R ->
  dot (normalize_row v) (normalize_row v) = 1%R.
Proof.
  intro H. rewrite dot_normalize_row, Rmax_left by lra.
  rewrite norm2_square.
  pose proof (norm2_square v). apply Rdiv_diag. nra.
Qed.

Lemma dot_normalized_bounds (u v : Tensor1) :
  (-1 <= dot (normalize_row u) (normalize_row v) <= 1)%R.
Proof.
  pose proof (normalize_row_le_1 u). pose proof (normalize_row_le_1 v).
  pose proof (dot_self_nonneg (normalize_row u)).
  pose proof (dot_self_nonneg (normalize_row v)).
  destruct (dot_mean_bound (normalize_row u) (normalize_row v)). lra.
Qed.




(** ** [transpose] and [mm] *)

Lemma nth_column (k j : nat) (e : Tensor2) :
  nth j (column k e) 0%R = nth k (nth j e []) 0%R.
Proof.
  unfold column.
  assert (Hd : nth k (@nil R) 0%R = 0%R) by (destruct k; reflexivity).
  rewrite <- Hd at 1.
  exact (map_nth (fun row : list R => nth k row 0%R) e [] j).
Qed.

Lemma column_transpose (d j : nat) (e : Tensor2) :
  length (nth j e []) = d ->
  column j (transpose d e) = nth j e [].
Proof.
  intro H. unfold transpose. unfold column at 1. rewrite map_map.
  transitivity (map (fun k => nth k (nth j e []) 0%R) (seq 0 d)).
  - apply map_ext. intro k. apply nth_column.
  - rewrite <- H. symmetry. apply list_self_seq.
Qed.

(** Against a stored transposed matrix, [mm] gives the dot products of
    the rows of [a] with the rows of [e]. *)
Lemma mm_transpose (d : nat) (a e : Tensor2) :
  0 < d ->
  Forall (fun row => length row = d) a ->
  Forall (fun row => length row = d) e ->
  mm a (transpose d e)
  = Ok (map (fun row => map (fun j => dot row (nth j e [])) (seq 0 (length e))) a).
Proof.
  intros Hd Ha He. unfold mm.
  assert (Hlen : length (transpose d e) = d)
    by (unfold transpose; now rewrite length_map, length_seq).
  rewrite Hlen.
  assert (Hall : forallb (fun row : list R => length row =? d) a = true).
  { apply forallb_forall. intros row Hrow. rewrite Forall_forall in Ha.
    apply Nat.eqb_eq. now apply Ha. }
  rewrite Hall. f_equal.
  assert (Hhd : length (hd [] (transpose d e)) = length e).
  { unfold transpose. destruct d as [|d]; [lia|]. simpl.
    unfold column. apply length_map. }
  rewrite Hhd. apply map_ext. intro row. apply map_ext_in. intros j Hj.
  apply in_seq in Hj. rewrite column_transpose; [reflexivity|].
  rewrite Forall_forall in He. apply He. apply nth_In. lia.
Qed.

(** ** The monad of methods *)

Section Methods.

Context {S : Type}.

Lemma bind_frame {A B} (c : M S A) (k : A -> M S B) :
  (forall s, fst (c s) = s) ->
  (forall a s, fst (k a s) = s) ->
  forall s, fst (bind c k s) = s.
Proof.
  intros Hc Hk s. unfold bind. specialize (Hc s).
  destruct (c s) as [s' [a|e]]; simpl in Hc; subst s'.
  - apply Hk.
  - reflexivity.
Qed.

Lemma for_each_frame {A B} (f : A -> M S B) (l : list A) :
  (forall x s, fst (f x s) = s) ->
  forall s, fst (for_each f l s) = s.
Proof.
  intro Hf. induction l as [|x l IH]; intro s; simpl.
  - reflexivity.
  - apply bind_frame; [apply Hf|]. intros y s'.
    apply bind_frame; [apply IH|]. reflexivity.
Qed.

Lemma for_each_ok {A B} (f : A -> M S B) (g : A -> B) (l : list A) (s : S) :
  (forall x, In x l -> f x s = (s, Ok (g x))) ->
  for_each f l s = (s, Ok (map g l)).
Proof.
  induction l as [|x l IH]; intro H; simpl.
  - reflexivity.
  - unfold bind at 1. rewrite (H x) by (now left).
    unfold bind. rewrite IH by (intros y Hy; apply H; now right).
    reflexivity.
Qed.

Lemma for_each_raise_first {A B} (f : A -> M S B) (x : A) (l : list A)
    (s : S) (e : exn) :
  f x s = (s, Raise e) -> for_each f (x :: l) s = (s, Raise e).
Proof. intro H. simpl. unfold bind. now rewrite H. Qed.

Lemma for_each_forall {A B} (f : A -> M S B) (Pr : B -> Prop) (l : list A)
    (s s' : S) (rs : list B) :
  (forall x s1 r, f x s = (s1, Ok r) -> s1 = s /\ Pr r) ->
  for_each f l s = (s', Ok rs) -> Forall Pr rs.
Proof.
  intro H. revert s' rs. induction l as [|x l IH]; intros s' rs; simpl.
  - unfold ret. intro E. injection E as _ <-. constructor.
  - unfold bind at 1. destruct (f x s) as [s1 [r|e]] eqn:Ef; [|discriminate].
    apply H in Ef. destruct Ef as [-> Hr].
    unfold bind. destruct (for_each f l s) as [s2 [rs'|e]] eqn:El; [|discriminate].
    unfold ret. intro E. injection E as _ <-.
    constructor; [exact Hr | eapply IH; reflexivity].
Qed.

End Methods.

(** ** The searcher *)

Section Searcher.

Context {P : EmbeddingProvider}.

Lemma set_context_qa_run (qs ans : list string) (x : Tensor2) (s : QASearcher) :
  get_embeddings qs 32 = Ok x ->
  set_context_qa qs ans s
  = ({| answers := Some ans; questions := Some qs;
        question_embeddings := Some (transpose dim (normalize x)) |}, Ok tt).
Proof.
  intro H. unfold set_context_qa, get_q_embeddings, bind, write, lift, ret.
  simpl. rewrite H. reflexivity.
Qed.

Lemma set_context_qa_raise (qs ans : list string) (e : exn) (s : QASearcher) :
  get_embeddings qs 32 = Raise e ->
  set_context_qa qs ans s
  = ({| answers := Some ans; questions := Some qs;
        question_embeddings := question_embeddings s |}, Raise e).
Proof.
  intro H. unfold set_context_qa, get_q_embeddings, bind, write, lift, ret.
  simpl. rewrite H. reflexivity.
Qed.

Lemma set_context_qa_holds (qs ans : list string) (x : Tensor2) (s : QASearcher) :
  get_embeddings qs 32 = Ok x ->
  holds_context (fst (set_context_qa qs ans s)) qs ans x.
Proof.
  intro H. rewrite (set_context_qa_run _ _ _ H). now repeat split.
Qed.

Lemma width_normalize (x : Tensor2) :
  Forall (fun row => length row = dim) x ->
  Forall (fun row => length row = dim) (normalize x).
Proof.
  intro H. unfold normalize. apply Forall_map.
  eapply Forall_impl; [|exact H]. intros row Hrow.
  now rewrite length_normalize_row.
Qed.

Lemma cosine_similarity_run (s : QASearcher) (cq ca qs : list string)
    (x y : Tensor2) (batch : Z) :
  holds_context s cq ca x ->
  get_embeddings qs batch = Ok y ->
  cosine_similarity qs batch s
  = (s, Ok (map (fun q => similarity_row q (normalize x)) (normalize y))).
Proof.
  intros [_ [_ [He Hx]]] Hy.
  apply get_embeddings_ok in Hx. destruct Hx as [_ [_ [_ Hwx]]].
  pose proof (get_embeddings_ok _ _ Hy) as [_ [_ [_ Hwy]]].
  unfold cosine_similarity, bind, lift, read. rewrite Hy, He.
  rewrite (mm_transpose dim_pos (width_normalize Hwy) (width_normalize Hwx)).
  reflexivity.
Qed.

Lemma length_similarity_row (q : Tensor1) (e : Tensor2) :
  length (similarity_row q e) = length e.
Proof. unfold similarity_row. now rewrite length_map, length_seq. Qed.

Lemma best_index_spec (row : Tensor1) :
  row <> [] ->
  argmax row = Ok (best_index row)
  /\ first_max (fun j => nth j row 0%R) (length row) (best_index row).
Proof.
  intro H. destruct (argmax_total H) as [k Hk]. unfold best_index.
  rewrite Hk. split; [reflexivity | now apply argmax_spec].
Qed.

Lemma getitem_nth {A} (l : list A) (i : nat) (d : A) :
  i < length l -> getitem l i = Ok (nth i l d).
Proof.
  intro H. unfold getitem. now rewrite (nth_error_nth' l d H).
Qed.

(** The record the loop of [get_answers] appends for query [i]. *)
Lemma get_answers_run (s : QASearcher) (cq ca qs : list string)
    (x y : Tensor2) (batch : Z) :
  holds_context s cq ca x ->
  length cq <= length ca ->
  get_embeddings qs batch = Ok y ->
  get_answers qs batch s
  = (s, Ok (map (fun i =>
        let k := best_index (similarity_row (nth i (normalize y) [])
                                            (normalize x)) in
        {| orig_q := nth i qs ""%string;
           best_q := nth k cq ""%string;
           best_a := nth k ca ""%string |})
      (seq 0 (length qs)))).
Proof.
  intros Hs Hlen Hy.
  pose proof (cosine_similarity_run qs batch Hs Hy) as Hsim.
  destruct Hs as [Hq [Ha [He Hx]]].
  apply get_embeddings_ok in Hx. destruct Hx as [_ [Hne [Hlx _]]].
  pose proof (get_embeddings_ok _ _ Hy) as [_ [_ [Hly _]]].
  assert (Hls : length (map (fun q => similarity_row q (normalize x)) (normalize y))
                = length qs)
    by (unfold normalize; now rewrite !length_map).
  unfold get_answers. unfold bind at 1. rewrite Hsim. cbv beta iota.
  rewrite Hls.
  apply for_each_ok. intros i Hi. apply in_seq in Hi.
  set (row := similarity_row (nth i (normalize y) []) (normalize x)).
  assert (Hrow : getitem (map (fun q => similarity_row q (normalize x)) (normalize y)) i
                 = Ok row).
  { unfold getitem. rewrite nth_error_map.
    rewrite (nth_error_nth' (normalize y) [])
      by (unfold normalize; rewrite length_map; lia).
    reflexivity. }
  assert (Hrl : length row = length cq).
  { unfold row. rewrite length_similarity_row. unfold normalize.
    now rewrite length_map. }
  assert (Hrne : row <> []).
  { intro E. rewrite E in Hrl. destruct cq; [congruence | discriminate]. }
  destruct (best_index_spec Hrne) as [Harg [Hk _]].
  unfold bind, lift, read, ret. rewrite Hrow, Harg, Hq, Ha. simpl.
  rewrite (getitem_nth cq ""%string) by lia.
  rewrite (getitem_nth ca ""%string) by lia.
  rewrite (getitem_nth qs ""%string) by lia.
  reflexivity.
Qed.

(** [get_answers] only reads the object. *)
Lemma get_answers_frame (qs : list string) (batch : Z) (s : QASearcher) :
  fst (get_answers qs batch s) = s.
Proof.
  unfold get_answers. apply bind_frame.
  - intro s0. unfold cosine_similarity. apply bind_frame; [reflexivity|].
    intros emb s1. apply bind_frame; [reflexivity|].
    intros [e|] s2; reflexivity.
  - intros sim s0. apply for_each_frame. intros i s1.
    repeat (apply bind_frame; [reflexivity | intros ? ?]). reflexivity.
Qed.

End Searcher.

(** ** What the tokenizer leaves at the real tokens *)

Lemma nth_map_in {A B} (g : A -> B) (l : list A) (i : nat) (d : A) (d' : B) :
  i < length l -> nth i (map g l) d' = g (nth i l d).
Proof.
  intro H. rewrite (nth_indep _ d' (g d)) by (now rewrite length_map).
  apply map_nth.
Qed.

Lemma nth_repeat_in {A} (a d : A) (n i : nat) :
  i < n -> nth i (repeat a n) d = a.
Proof.
  intro H. rewrite (nth_indep _ d a) by (now rewrite repeat_length).
  apply nth_repeat.
Qed.

Section Tokenizer.

Context {P : EmbeddingProvider}.

Lemma tokenizer_mask_valid (texts : list string) (b t : nat) :
  b < length texts -> t < token_count texts b ->
  nth t (nth b (attention_mask (tokenizer texts)) []) 0%Z = 1%Z.
Proof.
  intros Hb Ht. unfold tokenizer. cbn [attention_mask]. rewrite map_map.
  rewrite (nth_map_in _ texts ""%string) by exact Hb.
  fold (token_count texts b). rewrite app_nth1 by (now rewrite repeat_length).
  now apply nth_repeat_in.
Qed.

Lemma tokenizer_ids_valid (texts : list string) (b t : nat) :
  b < length texts -> t < token_count texts b ->
  nth t (nth b (input_ids (tokenizer texts)) []) 0
  = nth t (tokenize (nth b texts ""%string)) 0.
Proof.
  intros Hb Ht. unfold tokenizer. cbn [input_ids]. rewrite map_map.
  rewrite (nth_map_in _ texts ""%string) by exact Hb.
  now rewrite app_nth1.
Qed.

End Tokenizer.

(** ** The two providers are padding invariant *)


Lemma tiny_padding_invariant : padding_invariant (P := Toy.tiny).
Proof.
  intros texts b t d Hb Ht Hd. cbn [model Toy.tiny].
  unfold Toy.mask_at, Toy.token_at.
  rewrite (tokenizer_mask_valid (P := Toy.tiny) texts) by assumption.
  rewrite (tokenizer_ids_valid (P := Toy.tiny) texts) by assumption.
  rewrite (tokenizer_mask_valid (P := Toy.tiny) [nth b texts ""%string] (b := 0))
    by first [simpl; lia | exact Ht].
  rewrite (tokenizer_ids_valid (P := Toy.tiny) [nth b texts ""%string] (b := 0))
    by first [simpl; lia | exact Ht].
  reflexivity.
Qed.

(** ** Helpers for the statements *)


Lemma nth_similarity_row (q : Tensor1) (e : Tensor2) (j : nat) :
  j < length e -> nth j (similarity_row q e) 0%R = dot q (nth j e []).
Proof.
  intro H. unfold similarity_row.
  exact (@nth_map_seq R (fun j => dot q (nth j e [])) (length e) j 0%R H).
Qed.

Lemma first_max_ext (f g : nat -> R) (n k : nat) :
  (forall j, j < n -> f j = g j) -> first_max f n k -> first_max g n k.
Proof.
  intros E [Hk [Hle Hlt]]. repeat split.
  - exact Hk.
  - intros j Hj. rewrite <- !E by assumption. now apply Hle.
  - intros j Hj. rewrite <- !E by lia. now apply Hlt.
Qed.

Section AfterSetContext.

Context {P : EmbeddingProvider}.

Lemma set_context_qa_ok (cq ca : list string) (s0 : QASearcher) :
  snd (set_context_qa cq ca s0) = Ok tt ->
  exists x, holds_context (fst (set_context_qa cq ca s0)) cq ca x
            /\ cq <> [] /\ length x = length cq.
Proof.
  intro H. destruct (get_embeddings cq 32) as [x|e] eqn:E.
  - exists x. split; [now apply set_context_qa_holds|].
    apply get_embeddings_ok in E. tauto.
  - rewrite (set_context_qa_raise _ _ _ E) in H. discriminate.
Qed.

End AfterSetContext.

Section Retrieval.

Context {P : EmbeddingProvider}.

Lemma cosine_similarity_frame (qs : list string) (batch : Z) (s : QASearcher) :
  fst (cosine_similarity qs batch s) = s.
Proof.
  unfold cosine_similarity. apply bind_frame; [reflexivity|].
  intros emb s1. apply bind_frame; [reflexivity|].
  intros [e|] s2; reflexivity.
Qed.

Lemma mm_length (a b c : Tensor2) : mm a b = Ok c -> length c = length a.
Proof.
  unfold mm. destruct (forallb (fun row => length row =? length b) a);
    [|discriminate].
  intro H. injection H as <-. apply length_map.
Qed.

Lemma cosine_similarity_ok (qs : list string) (batch : Z) (s s' : QASearcher)
    (sim : Tensor2) :
  cosine_similarity qs batch s = (s', Ok sim) ->
  s' = s /\ question_embeddings s <> None /\ length sim = length qs /\ qs <> [].
Proof.
  intro H. pose proof (cosine_similarity_frame qs batch s) as Hf.
  rewrite H in Hf. simpl in Hf. split; [exact Hf|]. subst s'.
  unfold cosine_similarity, bind, lift, read in H.
  destruct (get_embeddings qs batch) as [y|e] eqn:Ey; [|discriminate].
  apply get_embeddings_ok in Ey. destruct Ey as [_ [Hne [Hly _]]].
  destruct (question_embeddings s) as [e|]; [|discriminate].
  unfold raise in H. destruct (mm (normalize y) e) as [c|x] eqn:Em;
    [|discriminate].
  injection H as <-. apply mm_length in Em.
  unfold normalize in Em. rewrite length_map in Em.
  repeat split; [discriminate | congruence | exact Hne].
Qed.

(** Every record is read off the stored questions and answers at one index. *)
Lemma get_answers_records (s : QASearcher) (cq ca qs : list string)
    (batch : Z) (resp : list Answer) :
  questions s = Some cq -> answers s = Some ca ->
  snd (get_answers qs batch s) = Ok resp ->
  Forall (fun r => exists k, nth_error cq k = Some (best_q r)
                             /\ nth_error ca k = Some (best_a r)) resp.
Proof.
  intros Hq Ha H. unfold get_answers in H. unfold bind at 1 in H.
  destruct (cosine_similarity qs batch s) as [s1 [sim|e]] eqn:Es;
    [|discriminate].
  apply cosine_similarity_ok in Es. destruct Es as [-> _].
  match type of H with
  | snd (for_each ?f ?l s) = _ =>
      destruct (for_each f l s) as [s2 [rs|e]] eqn:Ef; [|discriminate]
  end.
  simpl in H. injection H as ->.
  eapply for_each_forall; [|exact Ef].
  intros i s1 r. unfold bind, lift, read, ret. rewrite Hq, Ha.
  destruct (getitem sim i) as [row|]; [|discriminate].
  destruct (argmax row) as [k|]; [|discriminate].
  simpl subscript. unfold getitem.
  destruct (nth_error cq k) as [bq|] eqn:Eq; [|discriminate].
  destruct (nth_error ca k) as [ba|] eqn:Ea; [|discriminate].
  destruct (nth_error qs i) as [oq|]; [|discriminate].
  intro E. injection E as <- <-. split; [reflexivity|].
  exists k. simpl. auto.
Qed.

(** Without stored embeddings, or with no stored question, the call raises. *)
Lemma get_answers_raises (s : QASearcher) (qs : list string) (batch : Z) :
  question_embeddings s = None \/ questions s = None \/ questions s = Some [] ->
  exists e, get_answers qs batch s = (s, Raise e).
Proof.
  intro H. unfold get_answers. unfold bind at 1.
  destruct (cosine_similarity qs batch s) as [s1 [sim|e]] eqn:Es.
  - apply cosine_similarity_ok in Es. destruct Es as [-> [He [Hl Hne]]].
    destruct H as [H|H]; [congruence|].
    destruct sim as [|row sim]; [destruct qs; [congruence | discriminate]|].
    cbn [length seq].
    assert (Hf : exists e, (fun i : nat =>
        bind (lift (getitem (row :: sim) i)) (fun row0 =>
        bind (lift (argmax row0)) (fun best_ix =>
        bind (read questions) (fun context_q =>
        bind (lift (subscript context_q best_ix)) (fun bq =>
        bind (read answers) (fun context_a =>
        bind (lift (subscript context_a best_ix)) (fun ba =>
        bind (lift (getitem qs i)) (fun oq =>
        ret {| orig_q := oq; best_q := bq; best_a := ba |})))))))) 0 s
        = (s, Raise e)).
    { unfold bind, lift, read, ret.
      change (getitem (row :: sim) 0) with (Ok row). cbv beta iota.
      destruct (argmax row) as [k|e]; [|eexists; reflexivity].
      destruct H as [-> | ->]; simpl subscript.
      - eexists; reflexivity.
      - unfold getitem. destruct k; eexists; reflexivity. }
    destruct Hf as [e Hf]. exists e. now apply for_each_raise_first.
  - pose proof (cosine_similarity_frame qs batch s) as Hf.
    rewrite Es in Hf. simpl in Hf. subst s1. eauto.
Qed.

Lemma get_answers_unset_TypeError (s : QASearcher) (qs : list string) (batch : Z) :
  question_embeddings s = None -> qs <> [] -> (0 < batch)%Z ->
  get_answers qs batch s = (s, Raise TypeError).
Proof.
  intros H Hne Hb. destruct (get_embeddings_total Hb Hne) as [y [Hy _]].
  unfold get_answers, cosine_similarity, bind, lift, read, raise.
  rewrite Hy, H. reflexivity.
Qed.

End Retrieval.

(** * The claims *)

Local Open Scope string_scope.

(** C2, as stated, fails: for the empty query list the call raises and
    returns no list of records. *)
Lemma get_answers_empty_queries_raise :
  snd (get_answers (P := Toy.codes) [] 1
         (fst (set_context_qa (P := Toy.codes) ["ab"; "c"] ["x"; "y"] init)))
  = Raise RuntimeError.
Proof. reflexivity. Qed.

(** C3, as stated, fails: three questions with two answers are accepted,
    nothing is raised and the context stored before is overwritten. *)
Lemma set_context_qa_accepts_mismatch :
  snd (set_context_qa (P := Toy.codes) ["a"; "b"; "c"] ["x"; "y"]
         (fst (set_context_qa (P := Toy.codes) ["q"] ["old"] init)))
  = Ok tt /\
  answers (fst (set_context_qa (P := Toy.codes) ["q"] ["old"] init))
  = Some ["old"] /\
  answers (fst (set_context_qa (P := Toy.codes) ["a"; "b"; "c"] ["x"; "y"]
                  (fst (set_context_qa (P := Toy.codes) ["q"] ["old"] init))))
  = Some ["x"; "y"].
Proof. repeat split. Qed.

(** C3, amended.  [set_context_qa] compares no lengths: for every
    question list that is not empty and every answer list, of any length,
    the call returns and the stored triple becomes the given questions,
    the given answers and the transposed normalised embeddings of the
    questions. *)
Theorem set_context_qa_no_length_check {P : EmbeddingProvider}
    (s : QASearcher) (qs ans : list string) :
  qs <> [] ->
  exists x,
    get_embeddings qs 32 = Ok x /\
    set_context_qa qs ans s
    = ({| answers := Some ans; questions := Some qs;
          question_embeddings := Some (transpose dim (normalize x)) |}, Ok tt).
Proof.
  intro Hne.
  destruct (@get_embeddings_total P qs 32%Z ltac:(lia) Hne) as [x [Hx _]].
  exists x. split; [exact Hx | now apply set_context_qa_run].
Qed.

Lemma set_context_qa_no_length_check_witness :
  ["a"; "b"; "c"] <> [] /\
  snd (set_context_qa (P := Toy.codes) ["a"; "b"; "c"] ["x"; "y"] init) = Ok tt.
Proof.
  split; [discriminate|].
  destruct (@set_context_qa_no_length_check Toy.codes init
              ["a"; "b"; "c"] ["x"; "y"]) as [x [_ H]].
  - discriminate.
  - rewrite H. reflexivity.
Defined.

(** C4, as stated, fails: no error named ContextNotSet or EmptyContext
    exists.  A query on the fresh object raises the TypeError of [mm]; a
    context of no question cannot be stored, since [set_context_qa] raises
    on it, and a query after that raises the same TypeError. *)
Lemma get_answers_unset_raises_TypeError :
  snd (get_answers (P := Toy.codes) ["q"] 1 init) = Raise TypeError /\
  TypeError <> "ContextNotSet" /\
  snd (set_context_qa (P := Toy.codes) [] [] init) = Raise RuntimeError /\
  snd (get_answers (P := Toy.codes) ["q"] 1
         (fst (set_context_qa (P := Toy.codes) [] [] init)))
  = Raise TypeError /\
  TypeError <> "EmptyContext".
Proof.
  split; [reflexivity|]. split; [discriminate|]. split; [reflexivity|].
  split; [reflexivity | discriminate].
Qed.

(** C4, amended.  When no embeddings are stored, or the stored questions
    are missing or empty, every call of [get_answers] raises an exception
    and returns no records; the object is left as it was.  With no stored
    embeddings, a query list that is not empty and a positive batch, the
    exception is the TypeError raised by [mm]. *)
Theorem get_answers_without_context_raises {P : EmbeddingProvider}
    (s : QASearcher) (qs : list string) (batch : Z) :
  question_embeddings s = None \/ questions s = None \/ questions s = Some [] ->
  exists e,
    get_answers qs batch s = (s, Raise e) /\
    (question_embeddings s = None -> qs <> [] -> (0 < batch)%Z ->
     e = TypeError).
Proof.
  intro H. destruct (get_answers_raises s qs batch H) as [e He].
  exists e. split; [exact He|]. intros Hn Hne Hb.
  rewrite (get_answers_unset_TypeError s Hn Hne Hb) in He. congruence.
Qed.

Lemma get_answers_without_context_raises_witness :
  question_embeddings init = None /\
  get_answers (P := Toy.codes) ["q"] 1 init = (init, Raise TypeError).
Proof.
  split; [reflexivity|].
  destruct (@get_answers_without_context_raises Toy.codes init ["q"] 1%Z)
    as [e [He Ht]].
  - left. reflexivity.
  - rewrite He. rewrite Ht; [reflexivity | reflexivity | discriminate | lia].
Defined.




(** C6, as stated, fails: the empty list of texts is refused, and so is
    the empty context. *)
Lemma empty_input_raises :
  get_embeddings (P := Toy.codes) [] 32 = Raise RuntimeError /\
  snd (set_context_qa (P := Toy.codes) [] [] init) = Raise RuntimeError.
Proof. split; reflexivity. Qed.

(** C6, amended.  Empty input is refused: for every positive batch
    [get_embeddings] raises a RuntimeError on the empty list of texts,
    since [cat] receives no tensor, and [set_context_qa] with no question
    and no answer raises the same error and stores no embeddings. *)
Theorem empty_input_is_refused {P : EmbeddingProvider}
    (s : QASearcher) (batch : Z) :
  (0 < batch)%Z ->
  get_embeddings [] batch = Raise RuntimeError /\
  snd (set_context_qa [] [] s) = Raise RuntimeError /\
  question_embeddings (fst (set_context_qa [] [] s)) = question_embeddings s.
Proof.
  intro Hb.
  assert (H : forall b, (0 < b)%Z -> get_embeddings [] b = Raise RuntimeError).
  { intros b Hb'. rewrite get_embeddings_raises by (now left).
    destruct (Z.eqb_spec b 0); [lia | reflexivity]. }
  split; [now apply H|].
  rewrite (set_context_qa_raise [] [] s (H 32%Z ltac:(lia))). split; reflexivity.
Qed.

Lemma empty_input_is_refused_witness :
  (0 < 8)%Z /\ get_embeddings (P := Toy.codes) [] 8 = Raise RuntimeError.
Proof.
  split; [lia|].
  exact (proj1 (@empty_input_is_refused Toy.codes init 8%Z ltac:(lia))).
Defined.

(** C9.  After a successful [set_context_qa] with the context A and then
    a successful one with the context B, the object is the one B alone
    gives, whatever was stored before, and every record a later
    [get_answers] returns holds a question and an answer found at one
    and the same index of B. *)
Theorem context_replacement_is_total {P : EmbeddingProvider}
    (s : QASearcher) (qA aA qB aB : list string) :
  snd (set_context_qa qA aA s) = Ok tt ->
  snd (set_context_qa qB aB (fst (set_context_qa qA aA s))) = Ok tt ->
  fst (set_context_qa qB aB (fst (set_context_qa qA aA s)))
  = fst (set_context_qa qB aB init) /\
  questions (fst (set_context_qa qB aB (fst (set_context_qa qA aA s)))) = Some qB /\
  answers (fst (set_context_qa qB aB (fst (set_context_qa qA aA s)))) = Some aB /\
  forall qs batch resp,
    snd (get_answers qs batch
           (fst (set_context_qa qB aB (fst (set_context_qa qA aA s))))) = Ok resp ->
    Forall (fun r => exists k, nth_error qB k = Some (best_q r)
                               /\ nth_error aB k = Some (best_a r)) resp.
Proof.
  intros _ HB.
  destruct (set_context_qa_ok _ _ _ HB) as [x [[Hq [Ha [He Hx]]] _]].
  split; [now rewrite !(set_context_qa_run _ _ _ Hx)|].
  split; [exact Hq|]. split; [exact Ha|].
  intros qs batch resp H. eapply get_answers_records; eassumption.
Qed.

Lemma context_replacement_is_total_witness :
  snd (set_context_qa (P := Toy.codes) ["a"] ["x"] init) = Ok tt /\
  answers (fst (set_context_qa (P := Toy.codes) ["b"; "cd"] ["y"; "z"]
                  (fst (set_context_qa (P := Toy.codes) ["a"] ["x"] init))))
  = Some ["y"; "z"].
Proof.
  split; [reflexivity|].
  destruct (@context_replacement_is_total Toy.codes init
              ["a"] ["x"] ["b"; "cd"] ["y"; "z"]) as [_ [_ [H _]]].
  - reflexivity.
  - reflexivity.
  - exact H.
Defined.

(** C10.  [get_answers] only reads the object: whatever the queries and
    the batch, and whether it returns or raises, the stored questions,
    answers and question embeddings are afterwards what they were. *)
Theorem get_answers_is_a_pure_read {P : EmbeddingProvider}
    (qs : list string) (batch : Z) (s : QASearcher) :
  fst (get_answers qs batch s) = s /\
  questions (fst (get_answers qs batch s)) = questions s /\
  answers (fst (get_answers qs batch s)) = answers s /\
  question_embeddings (fst (get_answers qs batch s)) = question_embeddings s.
Proof.
  rewrite get_answers_frame. repeat split.
Qed.

(** ** A provider with a tiny vector *)

Lemma norm2_singleton (a : R) : (0 <= a)%R -> norm2 [a] = a.
Proof.
  intro H. unfold norm2. rewrite dot_cons. change (dot [] []) with 0%R.
  rewrite Rplus_0_r. now apply sqrt_square.
Qed.

Lemma tiny_embed_a : embed_one (P := Toy.tiny) "a" = [1e-13%R].
Proof.
  rewrite embed_one_eq. unfold masked_mean.
  change (dim (P := Toy.tiny)) with 1.
  change (length (tokenize (EmbeddingProvider := Toy.tiny) "a")) with 1.
  cbn [seq map rsum fold_right INR].
  change (model (EmbeddingProvider := Toy.tiny)
                (tokenizer (P := Toy.tiny) ["a"]) 0 0 0) with 1e-13%R.
  rewrite Rmax_left by lra. f_equal. lra.
Qed.

Lemma tiny_embed_b : embed_one (P := Toy.tiny) "b" = [1%R].
Proof.
  rewrite embed_one_eq. unfold masked_mean.
  change (dim (P := Toy.tiny)) with 1.
  change (length (tokenize (EmbeddingProvider := Toy.tiny) "b")) with 1.
  cbn [seq map rsum fold_right INR].
  change (model (EmbeddingProvider := Toy.tiny)
                (tokenizer (P := Toy.tiny) ["b"]) 0 0 0) with 1%R.
  rewrite Rmax_left by lra. f_equal. lra.
Qed.

Lemma normalize_row_tiny : normalize_row [1e-13%R] = [(1 / 10)%R].
Proof.
  unfold normalize_row. rewrite norm2_singleton by lra.
  rewrite Rmax_right by lra. cbn [map]. f_equal. lra.
Qed.

Lemma normalize_row_one : normalize_row [1%R] = [1%R].
Proof.
  unfold normalize_row. rewrite norm2_singleton by lra.
  rewrite Rmax_left by lra. cbn [map]. f_equal. lra.
Qed.

(** * Further properties of the code *)

(** ** The loop of [get_embeddings] *)

Lemma range_from_below (fuel i stop step j : nat) :
  In j (range_from fuel i stop step) -> j < stop.
Proof.
  revert i. induction fuel as [|f IH]; intro i; simpl; [tauto|].
  destruct (Nat.ltb_spec i stop) as [Hi|Hi]; simpl; [|tauto].
  intros [<- | H]; [exact Hi | eapply IH; exact H].
Qed.

Lemma range_from_length (step : nat) :
  0 < step ->
  forall fuel i stop,
    stop - i <= fuel ->
    length (range_from fuel i stop step) = (stop - i + step - 1) / step.
Proof.
  intros Hs fuel. induction fuel as [|f IH]; intros i stop Hf; simpl.
  - replace (stop - i + step - 1) with (step - 1) by lia.
    symmetry. apply Nat.div_small. lia.
  - destruct (Nat.ltb_spec i stop) as [Hi|Hi]; simpl.
    + rewrite IH by lia.
      destruct (Nat.le_gt_cases (stop - i) step) as [Hle|Hgt].
      * replace (stop - (i + step) + step - 1) with (step - 1) by lia.
        rewrite Nat.div_small by lia.
        apply (Nat.div_unique _ _ 1 (stop - i - 1)); lia.
      * replace (stop - i + step - 1)
          with (stop - (i + step) + step - 1 + 1 * step) by lia.
        rewrite Nat.div_add by lia. lia.
    + replace (stop - i + step - 1) with (step - 1) by lia.
      symmetry. apply Nat.div_small. lia.
Qed.

Lemma length_slice {A} (l : list A) (i step : nat) :
  length (slice l i (i + step)) = Nat.min step (length l - i).
Proof.
  unfold slice. replace (i + step - i) with step by lia.
  now rewrite length_firstn, length_skipn.
Qed.

(** X1.  What a call of [get_embeddings] gives.  It returns exactly when
    there is at least one text and the batch is positive, with one row
    per text and [hidden_size] entries per row; batch 0 raises the
    ValueError of [range]; otherwise no text, or a negative batch, raises
    the RuntimeError of [cat]. *)
Theorem get_embeddings_outcome {P : EmbeddingProvider}
    (texts : list string) (batch : Z) :
  match get_embeddings texts batch with
  | Ok x =>
      texts <> [] /\ (0 < batch)%Z /\ length x = length texts /\
      Forall (fun row => length row = Pos.to_nat hidden_size) x
  | Raise e =>
      (texts = [] \/ (batch <= 0)%Z) /\
      e = (if (batch =? 0)%Z then ValueError else RuntimeError)
  end.
Proof.
  destruct (get_embeddings texts batch) as [x|e] eqn:E.
  - apply get_embeddings_ok in E. tauto.
  - assert (H : texts = [] \/ (batch <= 0)%Z).
    { destruct texts as [|t texts]; [now left|]. right.
      destruct (Z.leb_spec batch 0) as [L|L]; [exact L|].
      destruct (@get_embeddings_total P (t :: texts) batch L ltac:(discriminate))
        as [x [Hx _]].
      congruence. }
    split; [exact H|]. rewrite (get_embeddings_raises H) in E. congruence.
Qed.

(** X2.  For a positive batch, the loop of [get_embeddings] embeds the
    chunks one by one and concatenates the results; the chunks, taken in
    order, make up the texts; there are as many as the length divided by
    the batch, rounded up; none is empty and none has more than [batch]
    texts. *)
Theorem get_embeddings_chunking {P : EmbeddingProvider}
    (texts : list string) (batch : Z) :
  (0 < batch)%Z ->
  get_embeddings texts batch = cat (map embed_batch (chunks texts batch)) /\
  concat (chunks texts batch) = texts /\
  length (chunks texts batch)
  = (length texts + Z.to_nat batch - 1) / Z.to_nat batch /\
  Forall (fun c => 0 < length c <= Z.to_nat batch) (chunks texts batch).
Proof.
  intro Hb. unfold chunks. split; [|split; [|split]].
  - unfold get_embeddings. rewrite range_positive by exact Hb.
    cbn [bind_result]. now rewrite map_map.
  - rewrite chunks_concat by lia. reflexivity.
  - rewrite length_map, range_from_length by lia. f_equal. lia.
  - apply Forall_forall. intros c Hc. apply in_map_iff in Hc.
    destruct Hc as [i [<- Hi]]. apply range_from_below in Hi.
    rewrite length_slice. lia.
Qed.

Lemma get_embeddings_chunking_witness :
  (0 < 2)%Z /\
  chunks ["a"; "b"; "c"; "d"; "e"] 2 = [["a"; "b"]; ["c"; "d"]; ["e"]] /\
  length (chunks ["a"; "b"; "c"; "d"; "e"] 2) = 3.
Proof.
  split; [lia|]. split; [reflexivity|].
  destruct (@get_embeddings_chunking Toy.codes ["a"; "b"; "c"; "d"; "e"] 2%Z)
    as [_ [_ [H _]]]; [lia|].
  rewrite H. reflexivity.
Defined.



(** ** Shapes, and a context whose lists do not match *)

Lemma for_each_some_raise {S A B} (f : A -> M S B) (l : list A) (s : S)
    (e : exn) :
  (forall x, In x l -> (exists y, f x s = (s, Ok y)) \/ f x s = (s, Raise e)) ->
  (exists x, In x l /\ f x s = (s, Raise e)) ->
  for_each f l s = (s, Raise e).
Proof.
  induction l as [|x l IH]; intros Hall [b [Hin Hb]]; [destruct Hin|].
  simpl. unfold bind at 1.
  destruct (Hall x (or_introl eq_refl)) as [[y Hy] | Hr].
  - rewrite Hy. unfold bind. rewrite IH; [reflexivity | |].
    + intros z Hz. apply Hall. now right.
    + destruct Hin as [-> | Hin]; [congruence|]. exists b. now split.
  - now rewrite Hr.
Qed.

Section Shapes.

Context {P : EmbeddingProvider}.

Lemma length_column (j : nat) (x : Tensor2) : length (column j x) = length x.
Proof. apply length_map. Qed.

Lemma length_normalize (x : Tensor2) : length (normalize x) = length x.
Proof. apply length_map. Qed.

(** One iteration of the loop of [get_answers], for a context whose
    answers may be fewer than its questions. *)
Lemma get_answers_iteration (s : QASearcher) (cq ca qs : list string)
    (x y : Tensor2) (i : nat) :
  holds_context s cq ca x ->
  length y = length qs ->
  i < length qs ->
  let sim := map (fun q => similarity_row q (normalize x)) (normalize y) in
  let k := best_index (similarity_row (nth i (normalize y) []) (normalize x)) in
  k < length cq /\
  bind (lift (getitem sim i)) (fun row =>
  bind (lift (argmax row)) (fun best_ix =>
  bind (read questions) (fun context_q =>
  bind (lift (subscript context_q best_ix)) (fun bq =>
  bind (read answers) (fun context_a =>
  bind (lift (subscript context_a best_ix)) (fun ba =>
  bind (lift (getitem qs i)) (fun oq =>
  ret {| orig_q := oq; best_q := bq; best_a := ba |}))))))) s
  = if (k <? length ca)%nat
    then (s, Ok {| orig_q := nth i qs ""; best_q := nth k cq "";
                   best_a := nth k ca "" |})
    else (s, Raise IndexError).
Proof.
  intros [Hq [Ha [He Hx]]] Hly Hi sim k.
  apply get_embeddings_ok in Hx. destruct Hx as [_ [Hne [Hlx _]]].
  set (row := similarity_row (nth i (normalize y) []) (normalize x)).
  assert (Hrow : getitem sim i = Ok row).
  { unfold sim, getitem. rewrite nth_error_map.
    rewrite (nth_error_nth' (normalize y) [])
      by (rewrite length_normalize; lia).
    reflexivity. }
  assert (Hrl : length row = length cq)
    by (unfold row; now rewrite length_similarity_row, length_normalize).
  assert (Hrne : row <> [])
    by (intro E; rewrite E in Hrl; destruct cq; [congruence | discriminate]).
  destruct (best_index_spec Hrne) as [Harg [Hk _]].
  change (best_index row) with k in Harg, Hk.
  rewrite Hrl in Hk. split; [exact Hk|].
  unfold bind, lift, read, ret. rewrite Hrow, Harg, Hq, Ha. simpl subscript.
  rewrite (getitem_nth cq ""%string) by lia.
  destruct (Nat.ltb_spec k (length ca)) as [Hc|Hc].
  - rewrite (getitem_nth ca ""%string) by lia.
    rewrite (getitem_nth qs ""%string) by lia. reflexivity.
  - unfold getitem at 1.
    assert (Hnone : nth_error ca k = None) by (apply nth_error_None; lia).
    rewrite Hnone. reflexivity.
Qed.

End Shapes.

(** X4.  After a successful [set_context_qa] the stored embeddings have
    shape [hidden_size, n] for the [n] questions of the context, whatever
    the number of answers, and every similarity matrix has one row per
    query and [n] entries per row. *)
Theorem stored_and_similarity_shapes {P : EmbeddingProvider}
    (s0 : QASearcher) (cq ca : list string) :
  snd (set_context_qa cq ca s0) = Ok tt ->
  exists e,
    question_embeddings (fst (set_context_qa cq ca s0)) = Some e /\
    length e = Pos.to_nat hidden_size /\
    Forall (fun row => length row = length cq) e /\
    forall qs batch sim,
      snd (cosine_similarity qs batch (fst (set_context_qa cq ca s0))) = Ok sim ->
      length sim = length qs /\
      Forall (fun row => length row = length cq) sim.
Proof.
  intro Hset.
  destruct (set_context_qa_ok _ _ _ Hset) as [x [Hs [Hcq Hlx]]].
  pose proof Hs as [_ [_ [He _]]].
  eexists. split; [exact He|]. split; [|split].
  - unfold transpose. now rewrite length_map, length_seq.
  - apply Forall_forall. intros row Hrow. unfold transpose in Hrow.
    apply in_map_iff in Hrow. destruct Hrow as [j [<- _]].
    now rewrite length_column, length_normalize.
  - intros qs batch sim Hsim.
    destruct (get_embeddings qs batch) as [y|e] eqn:Ey.
    + rewrite (cosine_similarity_run qs batch Hs Ey) in Hsim.
      injection Hsim as <-. apply get_embeddings_ok in Ey.
      destruct Ey as [_ [_ [Hly _]]]. split.
      * now rewrite length_map, length_normalize.
      * apply Forall_forall. intros row Hrow. apply in_map_iff in Hrow.
        destruct Hrow as [q [<- _]].
        now rewrite length_similarity_row, length_normalize.
    + unfold cosine_similarity, bind, lift in Hsim. rewrite Ey in Hsim.
      discriminate.
Qed.

Lemma stored_and_similarity_shapes_witness :
  snd (set_context_qa (P := Toy.codes) ["ab"; "c"; "d"] ["x"] init) = Ok tt /\
  exists e,
    question_embeddings
      (fst (set_context_qa (P := Toy.codes) ["ab"; "c"; "d"] ["x"] init))
    = Some e /\ length e = 2.
Proof.
  split; [reflexivity|].
  destruct (@stored_and_similarity_shapes Toy.codes init ["ab"; "c"; "d"] ["x"])
    as [e [He [Hl _]]]; [reflexivity|].
  exists e. split; [exact He | exact Hl].
Defined.

(** X5.  [set_context_qa] is not atomic.  Called with no question it
    raises, but by then the stored questions and answers are replaced
    while the embeddings of the previous context stay; on the object it
    leaves, every later [get_answers] raises, also when the object
    answered queries before. *)
Theorem failed_set_context_breaks_searcher {P : EmbeddingProvider}
    (s : QASearcher) (ans : list string) :
  set_context_qa [] ans s
  = ({| answers := Some ans; questions := Some [];
        question_embeddings := question_embeddings s |}, Raise RuntimeError) /\
  forall qs batch,
    exists e, snd (get_answers qs batch (fst (set_context_qa [] ans s))) = Raise e.
Proof.
  assert (H : get_embeddings [] 32 = Raise RuntimeError)
    by (rewrite get_embeddings_raises by (now left); reflexivity).
  rewrite (set_context_qa_raise [] ans s H). split; [reflexivity|].
  intros qs batch. cbn [fst].
  destruct (get_answers_raises
              {| answers := Some ans; questions := Some [];
                 question_embeddings := question_embeddings s |} qs batch)
    as [e He]; [right; right; reflexivity|].
  exists e. now rewrite He.
Qed.

Lemma tiny_embeddings_ab :
  get_embeddings (P := Toy.tiny) ["a"; "b"] 32 = Ok [[1e-13%R]; [1%R]].
Proof.
  rewrite (get_embeddings_invariant (P := Toy.tiny))
    by first [exact tiny_padding_invariant | lia | discriminate].
  cbn [map]. now rewrite tiny_embed_a, tiny_embed_b.
Qed.

Lemma tiny_embeddings_b :
  get_embeddings (P := Toy.tiny) ["b"] 1 = Ok [[1%R]].
Proof.
  rewrite (get_embeddings_invariant (P := Toy.tiny))
    by first [exact tiny_padding_invariant | lia | discriminate].
  cbn [map]. now rewrite tiny_embed_b.
Qed.

Lemma tiny_best_index_b :
  best_index (similarity_row (normalize_row [1%R])
                             (normalize [[1e-13%R]; [1%R]])) = 1.
Proof.
  cbn [normalize map]. rewrite normalize_row_tiny, normalize_row_one.
  unfold similarity_row. cbn [length seq map nth]. rewrite !dot_cons.
  change (dot [] []) with 0%R.
  unfold best_index, argmax, argmax_from.
  destruct (Rlt_dec (1 * (1 / 10) + 0) (1 * 1 + 0)) as [_|H];
    [reflexivity | exfalso; lra].
Qed.

(** ** What the answers depend on *)

Section Answers.

Context {P : EmbeddingProvider}.

Lemma best_index_below (q : Tensor1) (e : Tensor2) :
  e <> [] -> best_index (similarity_row q e) < length e.
Proof.
  intro He.
  assert (Hne : similarity_row q e <> []).
  { intro E. apply (f_equal (@length R)) in E.
    rewrite length_similarity_row in E. destruct e; [congruence | discriminate]. }
  destruct (best_index_spec Hne) as [_ [Hk _]].
  now rewrite length_similarity_row in Hk.
Qed.

Lemma best_index_first_max (q : Tensor1) (e : Tensor2) (k : nat) :
  first_max (fun j => dot q (nth j e [])) (length e) k ->
  best_index (similarity_row q e) = k.
Proof.
  intro Hk.
  assert (He : e <> []) by (destruct Hk as [Hlt _]; destruct e; [simpl in Hlt; lia | discriminate]).
  assert (Hne : similarity_row q e <> []).
  { intro E. apply (f_equal (@length R)) in E.
    rewrite length_similarity_row in E. destruct e; [congruence | discriminate]. }
  destruct (best_index_spec Hne) as [_ Hmax].
  rewrite length_similarity_row in Hmax.
  eapply first_max_unique; [|exact Hk].
  eapply first_max_ext; [|exact Hmax].
  intros j Hj. now apply nth_similarity_row.
Qed.

End Answers.



(** X9.  With a context of a single question, every query of every
    request that is not empty gets that question and the first answer,
    whatever the texts, the provider and the positive batch. *)
Theorem single_question_context_answers_every_query {P : EmbeddingProvider}
    (s0 : QASearcher) (q0 a0 : string) (rest qs : list string) (batch : Z) :
  qs <> [] ->
  (0 < batch)%Z ->
  snd (get_answers qs batch (fst (set_context_qa [q0] (a0 :: rest) s0)))
  = Ok (map (fun q => {| orig_q := q; best_q := q0; best_a := a0 |}) qs).
Proof.
  intros Hne Hb.
  destruct (@get_embeddings_total P [q0] 32%Z ltac:(lia) ltac:(discriminate))
    as [x [Hx [Hlx _]]].
  pose proof (set_context_qa_holds [q0] (a0 :: rest) s0 Hx) as Hs.
  destruct (get_embeddings_total Hb Hne) as [y [Hy [Hly _]]].
  assert (Hlen : length [q0] <= length (a0 :: rest)) by (simpl; lia).
  rewrite (get_answers_run qs batch Hs Hlen Hy). cbn [snd]. f_equal.
  transitivity (map (fun i => {| orig_q := nth i qs ""; best_q := q0;
                                 best_a := a0 |}) (seq 0 (length qs)));
    [|symmetry;
      exact (map_nth_seq (fun q => {| orig_q := q; best_q := q0; best_a := a0 |})
               qs "")].
  apply map_ext_in. intros i Hi.
  assert (Hk : best_index (similarity_row (nth i (normalize y) []) (normalize x)) = 0).
  { assert (He : normalize x <> [])
      by (intro E; apply (f_equal (@length Tensor1)) in E;
          rewrite length_normalize, Hlx in E; discriminate).
    pose proof (best_index_below (nth i (normalize y) []) He) as H.
    rewrite length_normalize, Hlx in H. simpl in H. lia. }
  cbv zeta. rewrite Hk. reflexivity.
Qed.

Lemma single_question_context_answers_every_query_witness :
  ["p"; "q"] <> [] /\
  snd (get_answers (P := Toy.codes) ["p"; "q"] 1
         (fst (set_context_qa (P := Toy.codes) ["ab"] ["x"] init)))
  = Ok [{| orig_q := "p"; best_q := "ab"; best_a := "x" |};
        {| orig_q := "q"; best_q := "ab"; best_a := "x" |}].
Proof.
  split; [discriminate|].
  apply (@single_question_context_answers_every_query Toy.codes init
           "ab" "x" [] ["p"; "q"] 1%Z); [discriminate | lia].
Defined.

(** ** [get_qa] *)

Module SquadFacts.

Import Squad.

Lemma for_acc_append_qa (l : list Qas) (acc : list string * list string) :
  for_acc append_qa l acc
  = if forallb answered (filter possible l)
    then Ok ((fst acc ++ map question (filter possible l))%list,
             (snd acc ++ map first_text (filter possible l))%list)
    else Raise IndexError.
Proof.
  revert acc. induction l as [|qa l IH]; intros [q a].
  - cbn [for_acc filter forallb map fst snd]. now rewrite !app_nil_r.
  - assert (Hp : possible qa = negb (is_impossible qa)) by reflexivity.
    cbn [for_acc filter]. rewrite Hp. unfold append_qa.
    destruct (is_impossible qa); cbn [negb bind_result fst snd].
    + apply IH.
    + cbn [forallb map]. unfold answered at 1, first_text at 1, getitem.
      destruct (answers qa) as [|first rest];
        cbn [nth_error bind_result hd andb]; [reflexivity|].
      rewrite IH. cbn [fst snd].
      destruct (forallb answered (filter possible l)); [|reflexivity].
      now rewrite <- !app_assoc.
Qed.

Lemma for_acc_paragraphs (ps : list Paragraph) (acc : list string * list string) :
  for_acc (fun acc paragraph => for_acc append_qa (qas paragraph) acc) ps acc
  = if forallb answered (filter possible (concat (map qas ps)))
    then Ok ((fst acc ++ map question (filter possible (concat (map qas ps))))%list,
             (snd acc ++ map first_text (filter possible (concat (map qas ps))))%list)
    else Raise IndexError.
Proof.
  revert acc. induction ps as [|p ps IH]; intros [q a].
  - cbn [for_acc map concat filter forallb fst snd]. now rewrite !app_nil_r.
  - cbn [for_acc map concat].
    rewrite for_acc_append_qa, filter_app, forallb_app, !map_app.
    destruct (forallb answered (filter possible (qas p)));
      cbn [bind_result andb fst snd]; [|reflexivity].
    rewrite IH. cbn [fst snd].
    destruct (forallb answered (filter possible (concat (map qas ps))));
      [|reflexivity].
    now rewrite <- !app_assoc.
Qed.

Lemma get_qa_equation (topic : string) (d : Dataset) :
  get_qa topic d
  = match find (fun art => String.eqb (title art) topic) (data d) with
    | None => Ok None
    | Some art =>
        let kept := filter possible (concat (map qas (paragraphs art))) in
        if forallb answered kept
        then Ok (Some (map question kept, map first_text kept))
        else Raise IndexError
    end.
Proof.
  unfold get_qa. induction (data d) as [|art arts IH]; simpl.
  - reflexivity.
  - destruct (String.eqb (title art) topic); [|exact IH].
    rewrite for_acc_paragraphs. cbn [fst snd app].
    destruct (forallb _ _); reflexivity.
Qed.

Lemma get_qa_lengths (topic : string) (d : Dataset) (q a : list string) :
  get_qa topic d = Ok (Some (q, a)) -> length q = length a.
Proof.
  rewrite get_qa_equation.
  destruct (find _ _) as [art|]; [|discriminate].
  cbv zeta. destruct (forallb _ _); [|discriminate].
  intro H. injection H as <- <-. now rewrite !length_map.
Qed.

End SquadFacts.

(** X10.  [get_qa] reads the first article whose title is the topic and
    no other.  Without such an article it returns None.  Otherwise it
    returns, in the order of the data, the questions of that article that
    are not marked impossible, each with the text of its first answer, so
    the two lists have the same length; and it raises IndexError when one
    of these questions has no answer. *)
Theorem get_qa_reads_first_matching_article (topic : string)
    (d : Squad.Dataset) :
  Squad.get_qa topic d
  = match find (fun art => String.eqb (Squad.title art) topic) (Squad.data d) with
    | None => Ok None
    | Some art =>
        let kept := filter Squad.possible
                           (concat (map Squad.qas (Squad.paragraphs art))) in
        if forallb Squad.answered kept
        then Ok (Some (map Squad.question kept, map Squad.first_text kept))
        else Raise IndexError
    end /\
  forall q a, Squad.get_qa topic d = Ok (Some (q, a)) -> length q = length a.
Proof.
  split; [apply SquadFacts.get_qa_equation|].
  intros q a. apply SquadFacts.get_qa_lengths.
Qed.

(** X11.  The lists [get_qa] returns can be stored as they are: when the
    list of questions is not empty, [set_context_qa] accepts the pair and
    every later [get_answers], for queries that are not empty and a
    positive batch, returns one record per query. *)
Theorem get_qa_output_is_a_context {P : EmbeddingProvider}
    (topic : string) (d : Squad.Dataset) (q a qs : list string)
    (s0 : QASearcher) (batch : Z) :
  Squad.get_qa topic d = Ok (Some (q, a)) ->
  q <> [] ->
  qs <> [] ->
  (0 < batch)%Z ->
  snd (set_context_qa q a s0) = Ok tt /\
  exists resp,
    snd (get_answers qs batch (fst (set_context_qa q a s0))) = Ok resp /\
    length resp = length qs.
Proof.
  intros Hqa Hq Hqs Hb.
  assert (Hlen : length q <= length a)
    by (rewrite (SquadFacts.get_qa_lengths _ _ Hqa); lia).
  destruct (@get_embeddings_total P q 32%Z ltac:(lia) Hq) as [x [Hx _]].
  pose proof (set_context_qa_holds q a s0 Hx) as Hs.
  destruct (get_embeddings_total Hb Hqs) as [y [Hy _]].
  split; [now rewrite (set_context_qa_run q a s0 Hx)|].
  rewrite (get_answers_run qs batch Hs Hlen Hy). eexists.
  split; [reflexivity|]. now rewrite length_map, length_seq.
Qed.

Lemma get_qa_output_is_a_context_witness :
  Squad.get_qa "Premier_League"
    {| Squad.data :=
         [ {| Squad.title := "Other"; Squad.paragraphs := [] |};
           {| Squad.title := "Premier_League";
              Squad.paragraphs :=
                [ {| Squad.qas :=
                       [ {| Squad.question := "How many clubs?";
                            Squad.is_impossible := false;
                            Squad.answers := [ {| Squad.text := "20" |} ] |};
                         {| Squad.question := "Who knows?";
                            Squad.is_impossible := true;
                            Squad.answers := [] |} ] |} ] |} ] |}
  = Ok (Some (["How many clubs?"], ["20"])) /\
  snd (set_context_qa (P := Toy.codes) ["How many clubs?"] ["20"] init) = Ok tt.
Proof.
  split; [reflexivity|].
  refine (proj1 (@get_qa_output_is_a_context Toy.codes "Premier_League"
            {| Squad.data :=
                 [ {| Squad.title := "Other"; Squad.paragraphs := [] |};
                   {| Squad.title := "Premier_League";
                      Squad.paragraphs :=
                        [ {| Squad.qas :=
                               [ {| Squad.question := "How many clubs?";
                                    Squad.is_impossible := false;
                                    Squad.answers := [ {| Squad.text := "20" |} ] |};
                                 {| Squad.question := "Who knows?";
                                    Squad.is_impossible := true;
                                    Squad.answers := [] |} ] |} ] |} ] |}
            ["How many clubs?"] ["20"] ["q"] init 1%Z _ _ _ _)).
  - reflexivity.
  - discriminate.
  - discriminate.
  - lia.
Defined.

(** ** Loading the model *)

(** X12.  The constructor of [QAEmbedder] either raises what loading the
    transformer raises, or else what loading the tokenizer raises, or
    returns an object that holds the transformer and the tokenizer of the
    given name.  On that object [set_model] never changes anything,
    whatever name it is given: it loads the name given at construction
    again. *)
Theorem set_model_keeps_the_constructed_model (Mdl Tok : Type)
    (auto_model : string -> result Mdl)
    (auto_tokenizer : string -> result Tok) (name : string) :
  match Loading.__init__ auto_model auto_tokenizer name with
  | Ok e =>
      exists m t,
        auto_model name = Ok m /\ auto_tokenizer name = Ok t /\
        e = {| Loading.model := Some m; Loading.tokenizer := Some t;
               Loading.model_name := name |} /\
        forall other,
          Loading.set_model auto_model auto_tokenizer other e = (e, Ok tt)
  | Raise x =>
      auto_model name = Raise x \/
      exists m, auto_model name = Ok m /\ auto_tokenizer name = Raise x
  end.
Proof.
  unfold Loading.__init__, Loading.set_model, Loading.get_model,
    bind, read, lift, write.
  cbn [Loading.model_name bind_result].
  destruct (auto_model name) as [m|x] eqn:Em; cbn [bind_result].
  - destruct (auto_tokenizer name) as [t|x] eqn:Et; cbn [bind_result fst snd].
    + exists m, t. repeat split. intro other.
      cbn [Loading.model_name]. rewrite Em. cbn [bind_result].
      rewrite Et. reflexivity.
    + right. exists m. now split.
  - now left.
Qed.

(** ** The requests *)

Section Requests.

Context {P : EmbeddingProvider}.

Lemma get_answers_invariant (s : QASearcher) (cq ca qs : list string)
    (x : Tensor2) (b1 b2 : Z) :
  padding_invariant ->
  holds_context s cq ca x ->
  length cq <= length ca ->
  qs <> [] -> (0 < b1)%Z -> (0 < b2)%Z ->
  get_answers qs b1 s = get_answers qs b2 s.
Proof.
  intros PI Hs Hlen Hne H1 H2.
  rewrite (get_answers_run qs b1 Hs Hlen (get_embeddings_invariant PI H1 Hne)).
  rewrite (get_answers_run qs b2 Hs Hlen (get_embeddings_invariant PI H2 Hne)).
  reflexivity.
Qed.

End Requests.

(** X13.  What the handler of [/set_context] does to the searcher.  When
    the body lacks the key questions or the key answers it raises
    KeyError and the searcher is untouched.  With both keys and no
    question it raises the RuntimeError of the embedder after the stored
    questions and answers are replaced.  With both keys and at least one
    question it stores the new context and returns the message. *)
Theorem set_context_request_outcome {P : EmbeddingProvider}
    (data : Body) (s : QASearcher) :
  match data "questions", data "answers" with
  | Some qs, Some ans =>
      match qs with
      | [] =>
          set_context data s
          = ({| answers := Some ans; questions := Some [];
                question_embeddings := question_embeddings s |},
             Raise RuntimeError)
      | _ :: _ =>
          exists x,
            get_embeddings qs 32 = Ok x /\
            set_context data s
            = ({| answers := Some ans; questions := Some qs;
                  question_embeddings := Some (transpose dim (normalize x)) |},
               Ok [("message", "Search context set")])
      end
  | _, _ => set_context data s = (s, Raise KeyError)
  end.
Proof.
  unfold set_context, item, bind, lift.
  destruct (data "questions") as [qs|]; cbv beta iota; [|reflexivity].
  destruct (data "answers") as [ans|]; cbv beta iota; [|reflexivity].
  destruct qs as [|q qs].
  - assert (H : get_embeddings [] 32 = Raise RuntimeError)
      by (rewrite get_embeddings_raises by (now left); reflexivity).
    rewrite (set_context_qa_raise [] ans s H). reflexivity.
  - destruct (@get_embeddings_total P (q :: qs) 32%Z ltac:(lia)
                ltac:(discriminate)) as [x [Hx _]].
    exists x. split; [exact Hx|].
    rewrite (set_context_qa_run (q :: qs) ans s Hx). reflexivity.
Qed.

(** ** The distances of the tutorial *)





(** * The program over every arithmetic *)

Local Open Scope nat_scope.
Local Open Scope list_scope.

Lemma length_zip_with {A B C} (f : A -> B -> C) (l : list A) (m : list B) :
  length (zip_with f l m) = Nat.min (length l) (length m).
Proof.
  revert m. induction l as [|x l IH]; intros [|y m]; simpl; auto.
Qed.

Lemma Forall_zip_with {A B C} (f : A -> B -> C) (Pa : A -> Prop)
    (Pb : B -> Prop) (Pc : C -> Prop) (l : list A) (m : list B) :
  (forall a b, Pa a -> Pb b -> Pc (f a b)) ->
  Forall Pa l -> Forall Pb m -> Forall Pc (zip_with f l m).
Proof.
  intros Hf Hl. revert m. induction Hl as [|x l Hx _ IH]; intros m Hm.
  - constructor.
  - destruct Hm as [|y m Hy Hm]; simpl; constructor; auto.
Qed.

Lemma nth_slice {A} (l : list A) (b i : nat) (d : A) :
  0 < b ->
  nth (i mod b) (slice l (b * (i / b)) (b * (i / b) + b)) d = nth i l d.
Proof.
  intro Hb. unfold slice.
  replace (b * (i / b) + b - b * (i / b)) with b by lia.
  rewrite nth_firstn.
  pose proof (Nat.mod_upper_bound i b ltac:(lia)) as Hm.
  destruct (Nat.ltb_spec (i mod b) b) as [_|H]; [|lia].
  rewrite nth_skipn. f_equal. symmetry. apply Nat.div_mod_eq.
Qed.

(** Row [i] of the concatenated chunks is the row of text [i] in the
    chunk that holds it. *)
Lemma nth_concat_chunks {A T} (g : list A -> list T) (l : list A) (b : nat) :
  (forall c, length (g c) = length c) ->
  0 < b ->
  forall fuel start i d,
    length l - start <= fuel ->
    start + i < length l ->
    nth i (concat (map (fun s => g (slice l s (s + b)))
                       (range_from fuel start (length l) b))) d
    = nth (i mod b)
          (g (slice l (start + b * (i / b)) (start + b * (i / b) + b))) d.
Proof.
  intros Hg Hb fuel. induction fuel as [|f IH]; intros start i d Hf Hi;
    [lia|].
  cbn [range_from].
  destruct (Nat.ltb_spec start (length l)) as [Hs|Hs]; [|lia].
  cbn [map concat].
  assert (Hlen : length (g (slice l start (start + b)))
                 = Nat.min b (length l - start))
    by (rewrite Hg; apply length_slice).
  destruct (Nat.lt_ge_cases i b) as [Hlt|Hge].
  - rewrite app_nth1 by lia.
    rewrite Nat.mod_small, Nat.div_small by exact Hlt.
    now rewrite Nat.mul_0_r, Nat.add_0_r.
  - rewrite app_nth2 by lia. rewrite Hlen.
    replace (Nat.min b (length l - start)) with b by lia.
    rewrite IH by lia.
    assert (Hi' : i = i - b + 1 * b) by lia.
    assert (Hmod : (i - b) mod b = i mod b)
      by (rewrite Hi' at 2; now rewrite Nat.Div0.mod_add).
    assert (Hdiv : i / b = (i - b) / b + 1)
      by (rewrite Hi' at 1; rewrite Nat.div_add by lia; reflexivity).
    rewrite Hmod, Hdiv.
    replace (start + b + b * ((i - b) / b))
      with (start + b * ((i - b) / b + 1)) by lia.
    reflexivity.
Qed.

Module GeneralFacts.

Import General.

Section Facts.

Context {A : Arithmetic} {P : Provider A}.

Lemma any_dim_pos : 0 < dim.
Proof. unfold dim. lia. Qed.

Lemma length_sum1 (t : list (list (list num))) : length (sum1 t) = length t.
Proof. apply length_map. Qed.

Lemma width_sum1 (t : list (list (list num))) :
  Forall (fun row => length row = dim) (sum1 t).
Proof.
  apply Forall_forall. intros row H. apply in_map_iff in H.
  destruct H as [rows [<- _]]. now rewrite length_map, length_seq.
Qed.

Lemma any_length_embed_batch (texts : list string) :
  length (embed_batch texts) = length texts.
Proof.
  unfold embed_batch, _mean_pooling, last_hidden_state, tokenizer.
  cbn [input_ids attention_mask].
  repeat (rewrite ?length_zip_with, ?length_map, ?length_sum1, ?length_seq).
  lia.
Qed.

Lemma any_width_embed_batch (texts : list string) :
  Forall (fun row => length row = dim) (embed_batch texts).
Proof.
  unfold embed_batch, _mean_pooling.
  eapply Forall_zip_with with (Pa := fun row => length row = dim)
                              (Pb := fun row => length row = dim).
  - intros a b Ha Hb. rewrite length_zip_with. lia.
  - apply width_sum1.
  - apply Forall_map. eapply Forall_impl; [|apply width_sum1].
    intros row H. now rewrite length_map.
Qed.

Lemma any_tokens_le_longest (texts : list string) (b : nat) :
  b < length texts ->
  length (tokenize (nth b texts ""%string))
  <= list_max (map (@length nat) (map tokenize texts)).
Proof.
  intro Hb.
  assert (H : Forall (fun k => k <= list_max (map (@length nat) (map tokenize texts)))
                     (map (@length nat) (map tokenize texts)))
    by (apply list_max_le; lia).
  rewrite Forall_forall in H. apply H.
  rewrite map_map. apply in_map_iff. exists (nth b texts ""%string).
  split; [reflexivity | now apply nth_In].
Qed.

Lemma any_tokenizer_rows (texts : list string) :
  length (input_ids (tokenizer texts)) = length texts.
Proof. unfold tokenizer. simpl. now rewrite !length_map. Qed.

Lemma any_tokenizer_longest (texts : list string) :
  texts <> [] ->
  length (hd [] (input_ids (tokenizer texts)))
  = list_max (map (@length nat) (map tokenize texts)).
Proof.
  intro Hne. destruct texts as [|s texts]; [congruence|].
  pose proof (@any_tokens_le_longest (s :: texts) 0) as H.
  unfold tokenizer. cbn [input_ids map hd]. rewrite length_app, repeat_length.
  cbn [nth length map] in H. specialize (H ltac:(lia)).
  cbn [map]. lia.
Qed.

(** Row [r] of a chunk is the masked mean of the token vectors of text
    [r] of the chunk. *)
Lemma embed_batch_pooled (texts : list string) :
  embed_batch texts = map (pooled texts) (seq 0 (length texts)).
Proof.
  destruct (list_eq_dec string_dec texts []) as [->|Hne]; [reflexivity|].
  unfold embed_batch, _mean_pooling, last_hidden_state.
  rewrite any_tokenizer_rows, (any_tokenizer_longest Hne).
  set (enc := tokenizer texts).
  set (Lg := list_max (map (@length nat) (map tokenize texts))).
  assert (HME : map (map (fun m => repeat (of_mask m) dim)) (attention_mask enc)
    = map (fun b => map (fun t => map (fun _ : nat =>
               of_mask (if t <? length (tokenize (nth b texts ""%string))
                        then 1 else 0)) (seq 0 dim))
             (seq 0 Lg)) (seq 0 (length texts))).
  { unfold enc, tokenizer. cbn [attention_mask]. fold Lg.
    rewrite !map_map. rewrite (map_nth_seq _ texts ""%string).
    apply map_ext_in. intros b Hb. apply in_seq in Hb.
    rewrite mask_row_indicator.
    pose proof (@any_tokens_le_longest texts b ltac:(lia)) as Hle.
    fold Lg in Hle.
    replace (length (tokenize (nth b texts ""%string))
             + (Lg - length (tokenize (nth b texts ""%string))))
      with Lg by lia.
    rewrite map_map. apply map_ext. intro t. apply repeat_map_seq. }
  rewrite HME. unfold sum1.
  rewrite zip_with_map, !map_map, zip_with_map.
  apply map_ext_in. intros b Hb. unfold pooled. fold enc. fold Lg.
  rewrite map_map, zip_with_map. apply map_ext_in. intros d Hd.
  apply in_seq in Hd.
  f_equal.
  - f_equal. rewrite zip_with_map, map_map. apply map_ext. intro t.
    rewrite zip_with_map. now rewrite nth_map_seq by lia.
  - f_equal. f_equal. rewrite map_map. apply map_ext. intro t.
    now rewrite nth_map_seq by lia.
Qed.

Lemma any_chunks_shape (texts : list string) (step : nat) (starts : list nat) :
  length (concat (map (fun i => embed_batch (slice texts i (i + step))) starts))
  = length (concat (map (fun i => slice texts i (i + step)) starts))
  /\ Forall (fun row => length row = dim)
            (concat (map (fun i => embed_batch (slice texts i (i + step))) starts)).
Proof.
  induction starts as [|i starts [IHl IHw]]; simpl.
  - split; [reflexivity | constructor].
  - split.
    + rewrite !length_app, any_length_embed_batch. now rewrite IHl.
    + apply Forall_app. split; [apply any_width_embed_batch | exact IHw].
Qed.

Lemma any_get_embeddings_chunks (texts : list string) (batch : Z) :
  (0 < batch)%Z -> texts <> [] ->
  get_embeddings texts batch
  = Ok (concat (map (fun i => embed_batch (slice texts i (i + Z.to_nat batch)))
                    (range_from (length texts) 0 (length texts) (Z.to_nat batch)))).
Proof.
  intros Hb Hne. unfold get_embeddings. rewrite range_positive by exact Hb.
  cbn [bind_result]. unfold cat.
  assert (Hr : range_from (length texts) 0 (length texts) (Z.to_nat batch) <> []).
  { destruct texts; [congruence|]. apply range_from_nonempty; simpl; lia. }
  destruct (range_from (length texts) 0 (length texts) (Z.to_nat batch));
    [congruence | reflexivity].
Qed.

Lemma any_get_embeddings_raises (texts : list string) (batch : Z) :
  texts = [] \/ (batch <= 0)%Z ->
  get_embeddings texts batch
  = Raise (if (batch =? 0)%Z then ValueError else RuntimeError).
Proof.
  intro H. unfold get_embeddings, range.
  destruct (Z.eqb_spec batch 0) as [E|E]; [reflexivity|].
  destruct (Z.ltb_spec batch 0) as [L|L]; [reflexivity|].
  destruct H as [-> | H]; [|lia]. reflexivity.
Qed.

(** What [get_embeddings] returns: one row per text, each of width
    [dim], row [i] being the row of text [i] in its chunk. *)
Lemma get_embeddings_rows (texts : list string) (batch : Z) :
  (0 < batch)%Z -> texts <> [] ->
  exists x,
    get_embeddings texts batch = Ok x /\
    length x = length texts /\
    Forall (fun row => length row = dim) x /\
    forall i, i < length texts -> nth i x [] = embedded_row texts batch i.
Proof.
  intros Hb Hne. eexists. split; [now apply any_get_embeddings_chunks|].
  destruct (any_chunks_shape texts (Z.to_nat batch)
              (range_from (length texts) 0 (length texts) (Z.to_nat batch)))
    as [Hl Hw].
  split; [|split; [exact Hw|]].
  - rewrite Hl, chunks_concat by lia. reflexivity.
  - intros i Hi. unfold embedded_row, chunk_of.
    rewrite (@nth_concat_chunks string (list num) embed_batch texts
               (Z.to_nat batch) any_length_embed_batch ltac:(lia)
               (length texts) 0 i []) by lia.
    cbn [Nat.add]. rewrite embed_batch_pooled. apply nth_map_seq.
    rewrite length_slice.
    pose proof (Nat.mod_upper_bound i (Z.to_nat batch) ltac:(lia)).
    pose proof (Nat.div_mod_eq i (Z.to_nat batch)). lia.
Qed.

Lemma any_get_embeddings_ok (texts : list string) (batch : Z) (x : list (list num)) :
  get_embeddings texts batch = Ok x ->
  (0 < batch)%Z /\ texts <> [] /\ length x = length texts
  /\ Forall (fun row => length row = dim) x
  /\ forall i, i < length texts -> nth i x [] = embedded_row texts batch i.
Proof.
  intro H.
  assert (Hb : (0 < batch)%Z).
  { destruct (Z.ltb_spec 0 batch) as [L|L]; [exact L|].
    rewrite any_get_embeddings_raises in H by (right; lia). discriminate. }
  assert (Hne : texts <> []).
  { intro E. rewrite any_get_embeddings_raises in H by (left; exact E). discriminate. }
  destruct (get_embeddings_rows Hb Hne) as [y [Hy Hrest]].
  rewrite Hy in H. injection H as <-. tauto.
Qed.

End Facts.

End GeneralFacts.

Module GeneralSearch.

Import General.
Import GeneralFacts.

Section Search.

Context {A : Arithmetic} {P : Provider A}.

Lemma any_nth_column (k j : nat) (e : list (list num)) :
  nth j (column k e) (of_mask 0) = nth k (nth j e []) (of_mask 0).
Proof.
  unfold column.
  assert (Hd : nth k (@nil num) (of_mask 0) = of_mask 0)
    by (destruct k; reflexivity).
  rewrite <- Hd at 1.
  exact (map_nth (fun row : list num => nth k row (of_mask 0)) e [] j).
Qed.

Lemma any_column_transpose (j : nat) (e : list (list num)) :
  length (nth j e []) = dim ->
  column j (transpose e) = nth j e [].
Proof.
  intro H. unfold transpose. unfold column at 1. rewrite map_map.
  transitivity (map (fun k => nth k (nth j e []) (of_mask 0)) (seq 0 dim)).
  - apply map_ext. intro k. apply any_nth_column.
  - rewrite <- H. symmetry. apply list_self_seq.
Qed.

Lemma any_mm_transpose (a e : list (list num)) :
  Forall (fun row => length row = dim) a ->
  Forall (fun row => length row = dim) e ->
  mm a (transpose e) = Ok (map (fun row => score_row row e) a).
Proof.
  intros Ha He. unfold mm.
  assert (Hlen : length (transpose e) = dim)
    by (unfold transpose; now rewrite length_map, length_seq).
  rewrite Hlen.
  assert (Hall : forallb (fun row : list num => (length row =? dim)%nat) a = true).
  { apply forallb_forall. intros row Hrow. rewrite Forall_forall in Ha.
    apply Nat.eqb_eq. now apply Ha. }
  rewrite Hall. f_equal.
  assert (Hhd : length (hd [] (transpose e)) = length e).
  { unfold transpose. pose proof any_dim_pos as Hd.
    destruct dim as [|d]; [lia|]. simpl. unfold column. apply length_map. }
  rewrite Hhd. apply map_ext. intro row. unfold score_row.
  apply map_ext_in. intros j Hj.
  apply in_seq in Hj. rewrite any_column_transpose; [reflexivity|].
  rewrite Forall_forall in He. apply He. apply nth_In. lia.
Qed.

Lemma any_width_normalize (x : list (list num)) :
  Forall (fun row => length row = dim) x ->
  Forall (fun row => length row = dim) (normalize x).
Proof.
  intro H. unfold normalize. apply Forall_map.
  eapply Forall_impl; [|exact H]. intros row Hrow.
  unfold normalize_row. now rewrite length_map.
Qed.

Lemma any_length_normalize (x : list (list num)) :
  length (normalize x) = length x.
Proof. apply length_map. Qed.

Lemma any_nth_normalize (x : list (list num)) (i : nat) :
  nth i (normalize x) [] = l2_normalized (nth i x []).
Proof.
  unfold normalize. exact (map_nth normalize_row x [] i).
Qed.

Lemma length_score_row (q : list num) (e : list (list num)) :
  length (score_row q e) = length e.
Proof. unfold score_row. now rewrite length_map, length_seq. Qed.

(** *** [argmax] *)

Lemma ordered_row_laws (l : list num) :
  ordered_row l = true ->
  forall a b c, In a l -> In b l -> In c l ->
    lt a a = false /\
    (lt a b = true -> lt b c = true -> lt a c = true) /\
    (lt a b = true -> lt a c = true \/ lt c b = true).
Proof.
  unfold ordered_row. intros H a b c Ha Hb Hc.
  rewrite forallb_forall in H. specialize (H a Ha).
  apply andb_prop in H. destruct H as [Hirr H].
  rewrite forallb_forall in H. specialize (H b Hb).
  rewrite forallb_forall in H. specialize (H c Hc).
  apply andb_prop in H. destruct H as [Htr Hcmp].
  split; [now apply negb_true_iff in Hirr|]. split.
  - intros H1 H2. rewrite H1, H2 in Htr. simpl in Htr.
    destruct (lt a c); [reflexivity | discriminate].
  - intro H1. rewrite H1 in Hcmp. simpl in Hcmp.
    apply orb_prop in Hcmp. exact Hcmp.
Qed.

Lemma any_argmax_from_spec (full : list num) (d : num) :
  ordered_row full = true ->
  forall (l pre : list num) (best_ix : nat) (best : num),
    full = pre ++ l ->
    best_ix < length pre ->
    nth best_ix pre d = best ->
    (forall j, j < length pre -> lt best (nth j pre d) = false) ->
    (forall j, j < best_ix -> lt (nth j pre d) best = true) ->
    first_max (fun j => nth j full d) (length full)
              (argmax_from best_ix best (length pre) l).
Proof.
  intros Hord.
  pose proof (ordered_row_laws full Hord) as Laws.
  induction l as [|x l IH]; intros pre best_ix best Hfull Hix Hbest Hle Hlt.
  - rewrite app_nil_r in Hfull. subst full. simpl. repeat split.
    + exact Hix.
    + intros j Hj. rewrite Hbest. now apply Hle.
    + intros j Hj. rewrite Hbest. now apply Hlt.
  - assert (Hlen : length (pre ++ [x]) = S (length pre))
      by (rewrite length_app; simpl; lia).
    assert (Hfull' : full = (pre ++ [x]) ++ l)
      by (now rewrite <- app_assoc).
    assert (Hin : forall j, j < length pre -> In (nth j pre d) full)
      by (intros j Hj; rewrite Hfull; apply in_or_app; left; now apply nth_In).
    assert (Hinx : In x full)
      by (rewrite Hfull; apply in_or_app; right; now left).
    assert (Hinb : In best full) by (rewrite <- Hbest; now apply Hin).
    assert (Hnew : nth (length pre) (pre ++ [x]) d = x)
      by (rewrite app_nth2, Nat.sub_diag by lia; reflexivity).
    simpl argmax_from. rewrite <- Hlen.
    destruct (lt best x) eqn:Hx.
    + apply IH; [exact Hfull' | lia | exact Hnew | |].
      * intros j Hj. destruct (Nat.eq_dec j (length pre)) as [->|Hne].
        -- rewrite Hnew. now apply (Laws x x x).
        -- rewrite app_nth1 by lia.
           assert (Hj' : j < length pre) by lia.
           destruct (lt x (nth j pre d)) eqn:E; [|reflexivity].
           destruct (Laws best x (nth j pre d) Hinb Hinx (Hin j Hj'))
             as [_ [Htr _]].
           rewrite (Hle j Hj') in Htr. symmetry. now apply Htr.
      * intros j Hj. rewrite app_nth1 by lia.
        destruct (Laws best x (nth j pre d) Hinb Hinx (Hin j Hj))
          as [_ [_ Hcmp]].
        destruct (Hcmp Hx) as [H|H]; [|exact H].
        rewrite (Hle j Hj) in H. discriminate.
    + apply IH; [exact Hfull' | lia | now rewrite app_nth1 by lia | |].
      * intros j Hj. destruct (Nat.eq_dec j (length pre)) as [->|Hne].
        -- now rewrite Hnew.
        -- rewrite app_nth1 by lia. apply Hle. lia.
      * intros j Hj. rewrite app_nth1 by lia. now apply Hlt.
Qed.

Lemma any_argmax_total (t : list num) : t <> [] -> argmax t = Ok (best_index t).
Proof. destruct t; [congruence|]. reflexivity. Qed.

Lemma any_best_index_below (t : list num) : t <> [] -> best_index t < length t.
Proof.
  destruct t as [|x l]; [congruence|]. intros _.
  unfold best_index, argmax.
  assert (H : forall l best_ix best ix,
             best_ix < ix -> argmax_from best_ix best ix l < ix + length l).
  { clear. induction l as [|y l IH]; intros best_ix best ix Hlt; simpl.
    - lia.
    - destruct (lt best y).
      + specialize (IH ix y (S ix) ltac:(lia)). lia.
      + specialize (IH best_ix best (S ix) ltac:(lia)). lia. }
  specialize (H l 0 x 1 ltac:(lia)). simpl. lia.
Qed.

Lemma any_best_index_first_max (t : list num) (d : num) :
  t <> [] -> ordered_row t = true ->
  first_max (fun j => nth j t d) (length t) (best_index t).
Proof.
  intros Hne Hord. destruct t as [|x l]; [congruence|].
  unfold best_index, argmax.
  apply (@any_argmax_from_spec (x :: l) d Hord l [x] 0 x).
  - reflexivity.
  - simpl. lia.
  - reflexivity.
  - intros j Hj. simpl in Hj. replace j with 0 by lia. simpl.
    now apply (ordered_row_laws (x :: l) Hord x x x); left.
  - intros j Hj. lia.
Qed.

Lemma any_first_max_unique (f : nat -> num) (n k k' : nat) :
  first_max f n k -> first_max f n k' -> k = k'.
Proof.
  intros [Hk [Hle Hlt]] [Hk' [Hle' Hlt']].
  destruct (Nat.lt_trichotomy k k') as [H|[H|H]]; [|exact H|].
  - specialize (Hlt' k H). specialize (Hle k' Hk'). congruence.
  - specialize (Hlt k' H). specialize (Hle' k Hk). congruence.
Qed.

End Search.

End GeneralSearch.

Module GeneralRun.

Import General.
Import GeneralFacts.
Import GeneralSearch.

Section Run.

Context {A : Arithmetic} {P : Provider A}.

Lemma any_set_context_qa_run (qs ans : list string) (x : list (list num))
    (s : QASearcher) :
  get_embeddings qs 32 = Ok x ->
  set_context_qa qs ans s
  = ({| answers := Some ans; questions := Some qs;
        question_embeddings := Some (transpose (normalize x)) |}, Ok tt).
Proof.
  intro H. unfold set_context_qa, get_q_embeddings, bind, write, lift, ret.
  simpl. rewrite H. reflexivity.
Qed.

Lemma any_set_context_qa_raise (qs ans : list string) (e : exn) (s : QASearcher) :
  get_embeddings qs 32 = Raise e ->
  set_context_qa qs ans s
  = ({| answers := Some ans; questions := Some qs;
        question_embeddings := question_embeddings s |}, Raise e).
Proof.
  intro H. unfold set_context_qa, get_q_embeddings, bind, write, lift, ret.
  simpl. rewrite H. reflexivity.
Qed.

Lemma any_set_context_qa_ok (cq ca : list string) (s0 : QASearcher) :
  snd (set_context_qa cq ca s0) = Ok tt ->
  exists x,
    get_embeddings cq 32 = Ok x /\
    fst (set_context_qa cq ca s0)
    = {| answers := Some ca; questions := Some cq;
         question_embeddings := Some (transpose (normalize x)) |}.
Proof.
  intro H. destruct (get_embeddings cq 32) as [x|e] eqn:E.
  - exists x. split; [reflexivity|]. now rewrite (any_set_context_qa_run cq ca s0 E).
  - rewrite (any_set_context_qa_raise cq ca s0 E) in H. discriminate.
Qed.

Lemma any_cosine_similarity_run (cq ca qs : list string) (x y : list (list num))
    (batch : Z) :
  get_embeddings cq 32 = Ok x ->
  get_embeddings qs batch = Ok y ->
  cosine_similarity qs batch
    {| answers := Some ca; questions := Some cq;
       question_embeddings := Some (transpose (normalize x)) |}
  = ({| answers := Some ca; questions := Some cq;
        question_embeddings := Some (transpose (normalize x)) |},
     Ok (map (fun q => score_row q (normalize x)) (normalize y))).
Proof.
  intros Hx Hy.
  apply any_get_embeddings_ok in Hx. destruct Hx as [_ [_ [_ [Hwx _]]]].
  pose proof (any_get_embeddings_ok _ _ Hy) as [_ [_ [_ [Hwy _]]]].
  unfold cosine_similarity, bind, lift, read. rewrite Hy.
  cbn [question_embeddings].
  rewrite (any_mm_transpose (any_width_normalize Hwy) (any_width_normalize Hwx)).
  reflexivity.
Qed.

(** Row [i] of the similarity matrix holds the cosine scores of the
    pooled vector of query [i] against those of the context. *)
Lemma similarity_row_scores (cq qs : list string) (x y : list (list num))
    (batch : Z) (i : nat) :
  get_embeddings cq 32 = Ok x ->
  get_embeddings qs batch = Ok y ->
  i < length qs ->
  score_row (nth i (normalize y) []) (normalize x)
  = map (fun j => cosine (embedded_row qs batch i) (embedded_row cq 32 j))
        (seq 0 (length cq)).
Proof.
  intros Hx Hy Hi.
  apply any_get_embeddings_ok in Hx. destruct Hx as [_ [_ [Hlx [_ Hrx]]]].
  apply any_get_embeddings_ok in Hy. destruct Hy as [_ [_ [Hly [_ Hry]]]].
  unfold score_row. rewrite any_length_normalize, Hlx.
  apply map_ext_in. intros j Hj. apply in_seq in Hj.
  rewrite !any_nth_normalize, (Hry i Hi), (Hrx j ltac:(lia)). reflexivity.
Qed.

Lemma any_getitem_nth {T} (l : list T) (i : nat) (d : T) :
  i < length l -> getitem l i = Ok (nth i l d).
Proof.
  intro H. unfold getitem. now rewrite (nth_error_nth' l d H).
Qed.

(** One iteration of the loop of [get_answers]. *)
Lemma any_get_answers_iteration (cq ca qs : list string) (x y : list (list num))
    (batch : Z) (i : nat) :
  get_embeddings cq 32 = Ok x ->
  get_embeddings qs batch = Ok y ->
  i < length qs ->
  let s := {| answers := Some ca; questions := Some cq;
              question_embeddings := Some (transpose (normalize x)) |} in
  let sim := map (fun q => score_row q (normalize x)) (normalize y) in
  let k := best_index (score_row (nth i (normalize y) []) (normalize x)) in
  nth i sim [] = score_row (nth i (normalize y) []) (normalize x) /\
  argmax (nth i sim []) = Ok k /\
  k < length cq /\
  bind (lift (getitem sim i)) (fun row =>
  bind (lift (argmax row)) (fun best_ix =>
  bind (read questions) (fun context_q =>
  bind (lift (subscript context_q best_ix)) (fun bq =>
  bind (read answers) (fun context_a =>
  bind (lift (subscript context_a best_ix)) (fun ba =>
  bind (lift (getitem qs i)) (fun oq =>
  ret {| orig_q := oq; best_q := bq; best_a := ba |}))))))) s
  = if k <? length ca
    then (s, Ok {| orig_q := nth i qs ""; best_q := nth k cq "";
                   best_a := nth k ca "" |})
    else (s, Raise IndexError).
Proof.
  intros Hx Hy Hi s sim k.
  apply any_get_embeddings_ok in Hx. destruct Hx as [_ [Hne [Hlx _]]].
  apply any_get_embeddings_ok in Hy. destruct Hy as [_ [_ [Hly _]]].
  set (row := score_row (nth i (normalize y) []) (normalize x)) in *.
  assert (Hnth : nth i sim [] = row).
  { unfold sim.
    rewrite (@nth_map_in _ _ (fun q => score_row q (normalize x))
               (normalize y) i [] [])
      by (rewrite any_length_normalize; lia).
    reflexivity. }
  assert (Hrow : getitem sim i = Ok row).
  { rewrite (any_getitem_nth sim [])
      by (unfold sim; rewrite length_map, any_length_normalize; lia).
    now rewrite Hnth. }
  assert (Hrl : length row = length cq)
    by (unfold row; now rewrite length_score_row, any_length_normalize).
  assert (Hrne : row <> [])
    by (intro E; rewrite E in Hrl; destruct cq; [congruence | discriminate]).
  pose proof (any_argmax_total Hrne) as Harg.
  pose proof (any_best_index_below Hrne) as Hk.
  change (best_index row) with k in Harg, Hk. rewrite Hrl in Hk.
  split; [exact Hnth|]. split; [now rewrite Hnth|]. split; [exact Hk|].
  unfold bind, lift, read, ret. rewrite Hrow, Harg.
  cbn [questions answers s subscript].
  rewrite (any_getitem_nth cq "") by lia.
  destruct (Nat.ltb_spec k (length ca)) as [Hc|Hc].
  - rewrite (any_getitem_nth ca "") by lia.
    rewrite (any_getitem_nth qs "") by lia. reflexivity.
  - unfold getitem at 1.
    assert (Hnone : nth_error ca k = None) by (apply nth_error_None; lia).
    rewrite Hnone. reflexivity.
Qed.

Lemma get_answers_unfold (qs : list string) (batch : Z) (s : QASearcher)
    (sim : list (list num)) :
  cosine_similarity qs batch s = (s, Ok sim) ->
  get_answers qs batch s
  = for_each (fun i =>
      bind (lift (getitem sim i)) (fun row =>
      bind (lift (argmax row)) (fun best_ix =>
      bind (read questions) (fun context_q =>
      bind (lift (subscript context_q best_ix)) (fun bq =>
      bind (read answers) (fun context_a =>
      bind (lift (subscript context_a best_ix)) (fun ba =>
      bind (lift (getitem qs i)) (fun oq =>
      ret {| orig_q := oq; best_q := bq; best_a := ba |}))))))))
    (seq 0 (length sim)) s.
Proof.
  intro H. unfold get_answers. unfold bind at 1. rewrite H. reflexivity.
Qed.

(** The result of [get_answers] on a stored context: the records when
    every selected index has an answer, IndexError otherwise. *)
Lemma any_get_answers_run (cq ca qs : list string) (x y : list (list num))
    (batch : Z) :
  get_embeddings cq 32 = Ok x ->
  get_embeddings qs batch = Ok y ->
  let s := {| answers := Some ca; questions := Some cq;
              question_embeddings := Some (transpose (normalize x)) |} in
  let best := fun i =>
    best_index (score_row (nth i (normalize y) []) (normalize x)) in
  ((forall i, i < length qs -> best i < length ca) ->
   get_answers qs batch s
   = (s, Ok (map (fun i => {| orig_q := nth i qs ""; best_q := nth (best i) cq "";
                              best_a := nth (best i) ca "" |})
                 (seq 0 (length qs))))) /\
  ((exists i, i < length qs /\ length ca <= best i) ->
   get_answers qs batch s = (s, Raise IndexError)).
Proof.
  intros Hx Hy s best.
  pose proof (any_cosine_similarity_run cq ca qs batch Hx Hy) as Hsim.
  fold s in Hsim.
  assert (Hls : length (map (fun q => score_row q (normalize x)) (normalize y))
                = length qs).
  { rewrite length_map, any_length_normalize.
    apply any_get_embeddings_ok in Hy. tauto. }
  split.
  - intro Hall. rewrite (@get_answers_unfold qs batch s _ Hsim), Hls.
    apply for_each_ok. intros i Hi. apply in_seq in Hi.
    destruct (@any_get_answers_iteration cq ca qs x y batch i Hx Hy (proj2 Hi))
      as [_ [_ [_ Hit]]].
    cbv zeta in Hit. fold s in Hit. rewrite Hit. fold (best i).
    destruct (Nat.ltb_spec (best i) (length ca)) as [_|Hc]; [reflexivity|].
    specialize (Hall i (proj2 Hi)). lia.
  - intros [i [Hi Hbad]]. rewrite (@get_answers_unfold qs batch s _ Hsim), Hls.
    apply for_each_some_raise.
    + intros j Hj. apply in_seq in Hj.
      destruct (@any_get_answers_iteration cq ca qs x y batch j Hx Hy (proj2 Hj))
        as [_ [_ [_ Hit]]].
      cbv zeta in Hit. fold s in Hit. rewrite Hit.
      destruct (best_index _ <? length ca);
        [left; eexists; reflexivity | now right].
    + exists i. split; [apply in_seq; lia|].
      destruct (@any_get_answers_iteration cq ca qs x y batch i Hx Hy Hi)
        as [_ [_ [_ Hit]]].
      cbv zeta in Hit. fold s in Hit. rewrite Hit. fold (best i).
      destruct (Nat.ltb_spec (best i) (length ca)) as [Hc|_];
        [lia | reflexivity].
Qed.

End Run.

End GeneralRun.

(** * Retrieval, in every arithmetic *)

Section AnyRetrieval.

Import General.

Context {A : Arithmetic} {P : Provider A}.

Lemma first_max_of_row (score : nat -> num) (n k : nat) (d : num) :
  first_max (fun j => nth j (map score (seq 0 n)) d) n k ->
  first_max score n k.
Proof.
  intros [Hk [Hle Hlt]]. split; [exact Hk|]. split.
  - intros j Hj. specialize (Hle j Hj).
    now rewrite !nth_map_seq in Hle by lia.
  - intros j Hj. specialize (Hlt j Hj).
    now rewrite !nth_map_seq in Hlt by lia.
Qed.

(** Text [i] of a list is text [i mod batch] of its chunk. *)
Lemma chunk_of_text (texts : list string) (batch : Z) (i : nat) :
  (0 < batch)%Z ->
  nth (i mod Z.to_nat batch) (chunk_of texts batch i) ""%string
  = nth i texts ""%string.
Proof. intro Hb. unfold chunk_of. apply nth_slice. lia. Qed.

(** The records of a stored context: one per query when every selected
    index has an answer. *)
Lemma records_of_context (s0 : QASearcher) (cq ca qs : list string)
    (batch : Z) :
  snd (set_context_qa cq ca s0) = Ok tt ->
  qs <> [] ->
  (0 < batch)%Z ->
  let s := fst (set_context_qa cq ca s0) in
  let scores := fun i =>
    map (fun j => cosine (embedded_row qs batch i) (embedded_row cq 32 j))
        (seq 0 (length cq)) in
  cq <> [] /\
  (exists sim,
      cosine_similarity qs batch s = (s, Ok sim) /\
      length sim = length qs /\
      forall i, i < length qs -> nth i sim [] = scores i) /\
  (forall i, i < length qs ->
     argmax (scores i) = Ok (best_index (scores i)) /\
     best_index (scores i) < length cq) /\
  ((forall i, i < length qs -> best_index (scores i) < length ca) ->
   get_answers qs batch s
   = (s, Ok (map (fun i =>
                    {| orig_q := nth i qs ""%string;
                       best_q := nth (best_index (scores i)) cq ""%string;
                       best_a := nth (best_index (scores i)) ca ""%string |})
                 (seq 0 (length qs))))) /\
  ((exists i, i < length qs /\ length ca <= best_index (scores i)) ->
   get_answers qs batch s = (s, Raise IndexError)).
Proof.
  intros Hset Hne Hb s scores.
  destruct (GeneralRun.any_set_context_qa_ok _ _ _ Hset) as [x [Hx Hs]].
  destruct (GeneralFacts.get_embeddings_rows Hb Hne) as [y [Hy [Hly _]]].
  pose proof (GeneralFacts.any_get_embeddings_ok _ _ Hx)
    as [_ [Hcne [Hlx _]]].
  assert (Hrow : forall i, i < length qs ->
            score_row (nth i (normalize y) []) (normalize x) = scores i)
    by (intros i Hi;
        exact (@GeneralRun.similarity_row_scores A P cq qs x y batch i Hx Hy Hi)).
  assert (Hsne : forall i, scores i <> []).
  { intros i E. apply (f_equal (@length num)) in E. unfold scores in E.
    rewrite length_map, length_seq in E. destruct cq; [congruence|discriminate]. }
  assert (Hsl : forall i, length (scores i) = length cq)
    by (intro i; unfold scores; now rewrite length_map, length_seq).
  unfold s. rewrite Hs.
  split; [exact Hcne|]. split; [|split; [|split]].
  - eexists. split;
      [exact (@GeneralRun.any_cosine_similarity_run A P cq ca qs x y batch Hx Hy)|].
    split; [now rewrite length_map, GeneralSearch.any_length_normalize|].
    intros i Hi.
    rewrite (@nth_map_in _ _ (fun q => score_row q (normalize x))
               (normalize y) i [] [])
      by (rewrite GeneralSearch.any_length_normalize; lia).
    now apply Hrow.
  - intros i Hi. split; [now apply GeneralSearch.any_argmax_total|].
    rewrite <- (Hsl i). now apply GeneralSearch.any_best_index_below.
  - intro Hall.
    destruct (@GeneralRun.any_get_answers_run A P cq ca qs x y batch Hx Hy)
      as [Hok _].
    rewrite Hok.
    + f_equal. f_equal. apply map_ext_in. intros i Hi. apply in_seq in Hi.
      now rewrite (Hrow i) by lia.
    + intros i Hi. rewrite (Hrow i Hi). now apply Hall.
  - intros [i [Hi Hbad]].
    destruct (@GeneralRun.any_get_answers_run A P cq ca qs x y batch Hx Hy)
      as [_ Hraise].
    apply Hraise. exists i. split; [exact Hi|]. now rewrite (Hrow i Hi).
Qed.

End AnyRetrieval.

(** C1.  In every arithmetic: after a successful [set_context_qa] with as
    many answers as questions, for a query list that is not empty and a
    positive batch, [get_answers] returns, and the record of query [i]
    holds the question and the answer stored at an index [k] below the
    number of questions.  The scores that decide [k] are the dot products
    of the L2-normalised pooled vector of the text of query [i] with the
    L2-normalised pooled vectors of the texts of the context.  Whenever
    the comparison of [argmax] orders these scores (as it always does
    over the reals and in binary32, [real_rows_are_ordered] and
    [binary32_rows_are_ordered]), [k] is their first maximum: no score
    exceeds the one at [k], every score before [k] is smaller, and [k] is
    the only index with the two properties, so among equal maximal scores
    the lowest index is selected. *)
Theorem selected_entry_is_first_maximum {A : General.Arithmetic}
    {P : General.Provider A}
    (s0 : General.QASearcher) (cq ca qs : list string) (batch : Z) :
  snd (General.set_context_qa cq ca s0) = Ok tt ->
  length ca = length cq ->
  qs <> [] ->
  (0 < batch)%Z ->
  exists resp,
    General.get_answers qs batch (fst (General.set_context_qa cq ca s0))
    = (fst (General.set_context_qa cq ca s0), Ok resp) /\
    (forall j, j < length cq ->
       nth (j mod 32) (General.chunk_of cq 32 j) "" = nth j cq "") /\
    forall i, i < length qs ->
      nth (i mod Z.to_nat batch) (General.chunk_of qs batch i) ""
      = nth i qs "" /\
      let score := fun j =>
        General.cosine
          (General.pooled (General.chunk_of qs batch i) (i mod Z.to_nat batch))
          (General.pooled (General.chunk_of cq 32 j) (j mod 32)) in
      exists k,
        k < length cq /\
        nth_error resp i
        = Some {| orig_q := nth i qs ""; best_q := nth k cq "";
                  best_a := nth k ca "" |} /\
        (General.ordered_row (map score (seq 0 (length cq))) = true ->
         General.first_max score (length cq) k /\
         forall k', General.first_max score (length cq) k' -> k' = k).
Proof.
  intros Hset Hlen Hne Hb.
  destruct (@records_of_context A P s0 cq ca qs batch Hset Hne Hb)
    as [_ [_ [Hbest [Hok _]]]].
  eexists. split; [apply Hok; intros i Hi; rewrite Hlen; now apply Hbest|].
  split; [intros j _; apply (@chunk_of_text cq 32 j); lia|].
  intros i Hi. split; [now apply chunk_of_text|].
  intro score.
  set (row := map score (seq 0 (length cq))).
  assert (Hrl : length row = length cq)
    by (unfold row; now rewrite length_map, length_seq).
  assert (Hrne : row <> [])
    by (intro E; rewrite E in Hrl; destruct cq as [|c cq'];
        [destruct (Hbest i Hi) as [_ H0]; simpl in H0; lia | discriminate]).
  exists (General.best_index row). split; [|split].
  - destruct (Hbest i Hi) as [_ H]. exact H.
  - rewrite nth_error_map, (nth_error_nth' (seq 0 (length qs)) 0)
      by (now rewrite length_seq).
    rewrite seq_nth by exact Hi. reflexivity.
  - intro Hord.
    assert (Hfm : General.first_max score (length cq) (General.best_index row)).
    { apply (@first_max_of_row A score (length cq) _ (General.of_mask 0)).
      rewrite <- Hrl at 1.
      exact (@GeneralSearch.any_best_index_first_max A row
               (General.of_mask 0) Hrne Hord). }
    split; [exact Hfm|].
    intros k' Hk'. exact (GeneralSearch.any_first_max_unique Hk' Hfm).
Qed.

Lemma selected_entry_is_first_maximum_witness :
  snd (General.set_context_qa (P := Binary32.codes) ["ab"; "c"] ["x"; "y"]
         General.init) = Ok tt /\
  snd (General.get_answers (P := Binary32.codes) ["c"] 1
         (fst (General.set_context_qa (P := Binary32.codes) ["ab"; "c"]
                 ["x"; "y"] General.init)))
  = Ok [{| orig_q := "c"; best_q := "ab"; best_a := "x" |}] /\
  General.first_max (A := Binary32.arithmetic)
    (fun j => General.cosine (A := Binary32.arithmetic)
                (General.pooled (P := Binary32.codes)
                   (General.chunk_of ["c"] 1 0) (0 mod Z.to_nat 1))
                (General.pooled (P := Binary32.codes)
                   (General.chunk_of ["ab"; "c"] 32 j) (j mod 32)))
    2 0.
Proof.
  split; [vm_compute; reflexivity|].
  destruct (@selected_entry_is_first_maximum Binary32.arithmetic
              Binary32.codes General.init ["ab"; "c"] ["x"; "y"]
              ["c"] 1%Z) as [resp [H [_ Hsel]]].
  - vm_compute. reflexivity.
  - reflexivity.
  - discriminate.
  - lia.
  - destruct (Hsel 0 ltac:(simpl; lia)) as [_ [k [Hk [Hrec Hmax]]]].
    assert (E : snd (General.get_answers (P := Binary32.codes) ["c"] 1
                       (fst (General.set_context_qa (P := Binary32.codes)
                               ["ab"; "c"] ["x"; "y"] General.init)))
                = Ok [{| orig_q := "c"; best_q := "ab"; best_a := "x" |}])
      by (vm_compute; reflexivity).
    split; [exact E|].
    rewrite H in E. cbn [snd] in E. injection E as E.
    assert (Hk0 : k = 0).
    { rewrite E in Hrec. clear - Hrec Hk.
      destruct k as [|[|k]];
        [reflexivity | discriminate Hrec | simpl in Hk; lia]. }
    subst k. destruct (Hmax ltac:(vm_compute; reflexivity)) as [Hfm _].
    exact Hfm.
Defined.

Lemma nth_error_chunk_of (texts : list string) (batch : Z) (i : nat) :
  (0 < batch)%Z ->
  nth_error (General.chunk_of texts batch i) (i mod Z.to_nat batch)
  = nth_error texts i.
Proof.
  intro Hb. unfold General.chunk_of, slice.
  set (b := Z.to_nat batch). assert (Hb' : 0 < b) by (unfold b; lia).
  replace (b * (i / b) + b - b * (i / b)) with b by lia.
  rewrite nth_error_firstn.
  pose proof (Nat.mod_upper_bound i b ltac:(lia)) as Hm.
  destruct (Nat.ltb_spec (i mod b) b) as [_|H]; [|lia].
  rewrite nth_error_skipn. f_equal. symmetry. apply Nat.div_mod_eq.
Qed.

(** C2, amended.  In every arithmetic: after a successful
    [set_context_qa] with as many answers as questions, for every query
    list that is not empty and every positive batch, [get_answers] returns
    exactly one record per query, in the order of the queries.  Row [i] of
    the similarity matrix holds the scores of the pooled vector of the
    text of query [i], whatever chunk the batch puts it in, against the
    pooled vectors of the texts of the context; record [i] holds the text
    of query [i], the stored question at the index [argmax] gives for that
    row, and the stored answer at that same index. *)
Theorem one_record_per_query_in_order {A : General.Arithmetic}
    {P : General.Provider A}
    (s0 : General.QASearcher) (cq ca qs : list string) (batch : Z) :
  snd (General.set_context_qa cq ca s0) = Ok tt ->
  length ca = length cq ->
  qs <> [] ->
  (0 < batch)%Z ->
  exists sim resp,
    General.cosine_similarity qs batch (fst (General.set_context_qa cq ca s0))
    = (fst (General.set_context_qa cq ca s0), Ok sim) /\
    General.get_answers qs batch (fst (General.set_context_qa cq ca s0))
    = (fst (General.set_context_qa cq ca s0), Ok resp) /\
    length sim = length qs /\
    length resp = length qs /\
    forall i q, nth_error qs i = Some q ->
      nth_error (General.chunk_of qs batch i) (i mod Z.to_nat batch) = Some q /\
      nth i sim []
      = map (fun j =>
               General.cosine
                 (General.pooled (General.chunk_of qs batch i)
                                 (i mod Z.to_nat batch))
                 (General.pooled (General.chunk_of cq 32 j) (j mod 32)))
            (seq 0 (length cq)) /\
      exists k bq ba,
        General.argmax (nth i sim []) = Ok k /\
        nth_error cq k = Some bq /\
        nth_error (General.chunk_of cq 32 k) (k mod 32) = Some bq /\
        nth_error ca k = Some ba /\
        nth_error resp i = Some {| orig_q := q; best_q := bq; best_a := ba |}.
Proof.
  intros Hset Hlen Hne Hb.
  destruct (@records_of_context A P s0 cq ca qs batch Hset Hne Hb)
    as [_ [[sim [Hsim [Hls Hrows]]] [Hbest [Hok _]]]].
  exists sim. eexists. split; [exact Hsim|].
  split; [apply Hok; intros i Hi; rewrite Hlen; now apply Hbest|].
  split; [exact Hls|]. split; [now rewrite length_map, length_seq|].
  intros i q Hq.
  assert (Hi : i < length qs) by (apply nth_error_Some; congruence).
  split; [now rewrite nth_error_chunk_of|].
  split; [exact (Hrows i Hi)|].
  destruct (Hbest i Hi) as [Harg Hk].
  set (k := General.best_index _) in *.
  exists k, (nth k cq ""), (nth k ca "").
  split; [rewrite (Hrows i Hi); exact Harg|].
  split; [now apply nth_error_nth'|].
  split.
  { change (k mod 32) with (k mod Z.to_nat 32).
    rewrite (@nth_error_chunk_of cq 32 k) by lia. now apply nth_error_nth'. }
  split; [apply nth_error_nth'; lia|].
  rewrite nth_error_map, (nth_error_nth' (seq 0 (length qs)) 0)
    by (now rewrite length_seq).
  rewrite seq_nth by exact Hi. cbn [option_map plus].
  rewrite (nth_error_nth _ _ "" Hq). reflexivity.
Qed.

Lemma one_record_per_query_in_order_witness :
  snd (General.set_context_qa (P := Binary32.codes) ["ab"; "c"] ["x"; "y"]
         General.init) = Ok tt /\
  exists resp,
    General.get_answers (P := Binary32.codes) ["c"; "ab"; "c"] 2
      (fst (General.set_context_qa (P := Binary32.codes) ["ab"; "c"]
              ["x"; "y"] General.init))
    = (fst (General.set_context_qa (P := Binary32.codes) ["ab"; "c"]
              ["x"; "y"] General.init), Ok resp) /\
    length resp = 3.
Proof.
  split; [vm_compute; reflexivity|].
  destruct (@one_record_per_query_in_order Binary32.arithmetic
              Binary32.codes General.init ["ab"; "c"] ["x"; "y"]
              ["c"; "ab"; "c"] 2%Z) as [sim [resp [_ [H [_ [Hl _]]]]]].
  - vm_compute. reflexivity.
  - reflexivity.
  - discriminate.
  - lia.
  - exists resp. split; [exact H | exact Hl].
Defined.

(** X6.  In every arithmetic: after a successful [set_context_qa] with
    lists of any lengths, for a query list that is not empty and a
    positive batch, the index [argmax] selects for a query is below the
    number of questions; [get_answers] returns the records read at the
    selected indices when each of them is also below the number of
    answers, and raises IndexError when one is not.  So surplus answers
    are never returned, and a context with too few answers fails only for
    a query whose selected question has no answer. *)
Theorem answers_with_unequal_lists {A : General.Arithmetic}
    {P : General.Provider A}
    (s0 : General.QASearcher) (cq ca qs : list string) (batch : Z) :
  snd (General.set_context_qa cq ca s0) = Ok tt ->
  qs <> [] ->
  (0 < batch)%Z ->
  let s := fst (General.set_context_qa cq ca s0) in
  let scores := fun i =>
    map (fun j =>
           General.cosine
             (General.pooled (General.chunk_of qs batch i)
                             (i mod Z.to_nat batch))
             (General.pooled (General.chunk_of cq 32 j) (j mod 32)))
        (seq 0 (length cq)) in
  exists selected : nat -> nat,
    (forall i, i < length qs ->
       General.argmax (scores i) = Ok (selected i) /\
       selected i < length cq) /\
    ((forall i, i < length qs -> selected i < length ca) ->
     General.get_answers qs batch s
     = (s, Ok (map (fun i => {| orig_q := nth i qs "";
                                best_q := nth (selected i) cq "";
                                best_a := nth (selected i) ca "" |})
                   (seq 0 (length qs))))) /\
    ((exists i, i < length qs /\ length ca <= selected i) ->
     General.get_answers qs batch s = (s, Raise IndexError)).
Proof.
  intros Hset Hne Hb s scores.
  destruct (@records_of_context A P s0 cq ca qs batch Hset Hne Hb)
    as [_ [_ [Hbest [Hok Hraise]]]].
  exists (fun i => General.best_index (scores i)).
  split; [exact Hbest|]. split; [exact Hok | exact Hraise].
Qed.

Lemma answers_with_unequal_lists_witness :
  snd (General.set_context_qa (P := Binary32.codes) [""; "c"] ["x"]
         General.init) = Ok tt /\
  snd (General.get_answers (P := Binary32.codes) [""] 1
         (fst (General.set_context_qa (P := Binary32.codes) [""; "c"] ["x"]
                 General.init)))
  = Ok [{| orig_q := ""; best_q := ""; best_a := "x" |}] /\
  snd (General.get_answers (P := Binary32.codes) ["c"] 1
         (fst (General.set_context_qa (P := Binary32.codes) [""; "c"] ["x"]
                 General.init)))
  = Raise IndexError.
Proof.
  split; [vm_compute; reflexivity|].
  split.
  - destruct (@answers_with_unequal_lists Binary32.arithmetic Binary32.codes
                General.init [""; "c"] ["x"] [""] 1%Z)
      as [selected [Hsel [Hok _]]].
    + vm_compute. reflexivity.
    + discriminate.
    + lia.
    + assert (H0 : selected 0 = 0).
      { destruct (Hsel 0 ltac:(simpl; lia)) as [Harg _].
        vm_compute in Harg. now injection Harg as <-. }
      rewrite Hok.
      * cbn [snd length seq map nth]. now rewrite H0.
      * intros i Hi. simpl in Hi. replace i with 0 by lia. rewrite H0.
        simpl. lia.
  - destruct (@answers_with_unequal_lists Binary32.arithmetic Binary32.codes
                General.init [""; "c"] ["x"] ["c"] 1%Z)
      as [selected [Hsel [_ Hraise]]].
    + vm_compute. reflexivity.
    + discriminate.
    + lia.
    + assert (H1 : selected 0 = 1).
      { destruct (Hsel 0 ltac:(simpl; lia)) as [Harg _].
        vm_compute in Harg. now injection Harg as <-. }
      rewrite Hraise; [reflexivity|].
      exists 0. split; [simpl; lia|]. rewrite H1. simpl. lia.
Defined.

(** * Divisions, with undefined results made visible *)

Module CheckedFacts.

Import General.






(** What the checked division gives where a divisor is zero. *)
Lemma div_by_zero (a : R) : Checked.div (Some a) (Some 0%R) = None.
Proof.
  unfold Checked.div. destruct (Req_EM_T 0 0) as [_|H]; [reflexivity|].
  now contradiction H.
Qed.




Section Defined.

Variables (tok : string -> list nat) (pad : nat) (h : positive)
          (f : BatchEncoding -> nat -> nat -> nat -> R).


End Defined.

End CheckedFacts.

(** * A text without tokens, in binary32 *)

Module Binary32Facts.

Import General.




Lemma zero_over_floor_9 :
  Binary32.div (S754_zero false)
    (Binary32.clamp_min (S754_zero false) Binary32.floor_1e_9)
  = S754_zero false.
Proof. reflexivity. Qed.




End Binary32Facts.

Section CheckedPipeline.

Import General.

Variables (tok : string -> list nat) (pad : nat) (h : positive)
          (f : BatchEncoding -> nat -> nat -> nat -> R).




End CheckedPipeline.



(** * A provider that is chunk independent in binary32 *)

Section AnyTokenizer.

Import General.

Context {A : Arithmetic} {P : Provider A}.

Lemma any_tokenizer_mask_valid (texts : list string) (b t : nat) :
  b < length texts -> t < length (tokenize (nth b texts ""%string)) ->
  nth t (nth b (attention_mask (tokenizer texts)) []) 0%Z = 1%Z.
Proof.
  intros Hb Ht. unfold tokenizer. cbn [attention_mask]. rewrite map_map.
  rewrite (nth_map_in _ texts ""%string) by exact Hb.
  rewrite app_nth1 by (now rewrite repeat_length).
  now apply nth_repeat_in.
Qed.

Lemma any_tokenizer_mask_padded (texts : list string) (b t : nat) :
  b < length texts -> length (tokenize (nth b texts ""%string)) <= t ->
  nth t (nth b (attention_mask (tokenizer texts)) []) 0%Z = 0%Z.
Proof.
  intros Hb Ht. unfold tokenizer. cbn [attention_mask]. rewrite map_map.
  rewrite (nth_map_in _ texts ""%string) by exact Hb.
  rewrite app_nth2 by (now rewrite repeat_length).
  set (k := list_max _ - _). set (i := t - _).
  destruct (Nat.lt_ge_cases i k) as [H|H].
  - now apply nth_repeat_in.
  - apply nth_overflow. now rewrite repeat_length.
Qed.

Lemma any_tokenizer_ids_valid (texts : list string) (b t : nat) :
  b < length texts -> t < length (tokenize (nth b texts ""%string)) ->
  nth t (nth b (input_ids (tokenizer texts)) []) 0
  = nth t (tokenize (nth b texts ""%string)) 0.
Proof.
  intros Hb Ht. unfold tokenizer. cbn [input_ids]. rewrite map_map.
  rewrite (nth_map_in _ texts ""%string) by exact Hb.
  now rewrite app_nth1.
Qed.

End AnyTokenizer.

Module Binary32Sums.

Import General.

Lemma round_nonneg (m e : Z) (l : location) :
  Binary32.nonneg (binary_round_aux 24 128 false m e l) = true.
Proof.
  unfold binary_round_aux.
  destruct (shr_fexp 24 128 m e l) as [mrs' e'].
  destruct (shr_fexp 24 128 _ e' loc_Exact) as [mrs'' e''].
  destruct (shr_m mrs''); [reflexivity | | reflexivity].
  destruct (e'' <=? 128 - 24)%Z; reflexivity.
Qed.

Lemma of_Z_nonneg (z : Z) : (0 <= z)%Z -> Binary32.nonneg (Binary32.of_Z z) = true.
Proof.
  intro H. unfold Binary32.of_Z, binary_normalize.
  destruct z as [|p|p]; [reflexivity | | lia].
  unfold binary_round. destruct (shl_align p 0 _) as [mz ez].
  apply round_nonneg.
Qed.

Lemma mul_nonneg (x y : spec_float) :
  Binary32.nonneg x = true -> Binary32.nonneg y = true ->
  Binary32.nonneg (Binary32.mul x y) = true.
Proof.
  destruct x as [[|]|[|]| |[|] mx ex]; destruct y as [[|]|[|]| |[|] my ey];
    simpl; intros Hx Hy; try discriminate; try reflexivity.
  apply round_nonneg.
Qed.

Lemma add_nonneg (x y : spec_float) :
  Binary32.nonneg x = true -> Binary32.nonneg y = true ->
  Binary32.nonneg (Binary32.add x y) = true.
Proof.
  destruct x as [[|]|[|]| |[|] mx ex]; destruct y as [[|]|[|]| |[|] my ey];
    simpl; intros Hx Hy; try discriminate; try reflexivity.
  unfold Binary32.add, SFadd.
  destruct (shl_align mx ex (Z.min ex ey)) as [ma ea].
  destruct (shl_align my ey (Z.min ex ey)) as [mb eb].
  cbn [fst cond_Zopp Z.add binary_normalize].
  unfold binary_round. destruct (shl_align _ _ _) as [mz ez].
  apply round_nonneg.
Qed.

Lemma add_zero_r (x : spec_float) :
  Binary32.nonneg x = true -> Binary32.add x (S754_zero false) = x.
Proof. destruct x as [[|]|[|]| |[|] mx ex]; simpl; intro H; try discriminate; reflexivity. Qed.

Lemma fold_nonneg (l : list spec_float) (acc : spec_float) :
  Binary32.nonneg acc = true ->
  Forall (fun x => Binary32.nonneg x = true) l ->
  Binary32.nonneg (fold_left Binary32.add l acc) = true.
Proof.
  intros Ha H. revert acc Ha.
  induction H as [|x l Hx _ IH]; intros acc Ha; cbn [fold_left];
    [exact Ha|].
  apply IH. now apply add_nonneg.
Qed.

Lemma fold_zeros (k : nat) (acc : spec_float) :
  Binary32.nonneg acc = true ->
  fold_left Binary32.add (repeat (S754_zero false) k) acc = acc.
Proof.
  intro Ha. induction k as [|k IH]; cbn [repeat fold_left]; [reflexivity|].
  now rewrite (add_zero_r acc Ha).
Qed.

(** Zeros after the terms of a sum of numbers that are not negative do
    not change it. *)
Lemma sum_padded (l : list spec_float) (k : nat) :
  Forall (fun x => Binary32.nonneg x = true) l ->
  Binary32.sum (l ++ repeat (S754_zero false) k) = Binary32.sum l.
Proof.
  intro H. unfold Binary32.sum. rewrite fold_left_app.
  apply fold_zeros. now apply fold_nonneg.
Qed.

End Binary32Sums.

Module Binary32Codes.

Import General.

Lemma codes_model (enc : BatchEncoding) (b t d : nat) :
  @model Binary32.arithmetic Binary32.codes enc b t d
  = if (Toy.mask_at enc b t =? 1)%Z
    then Binary32.of_Z (Z.of_nat (Toy.token_at enc b t + d))
    else Binary32.of_Z 7.
Proof. reflexivity. Qed.

Lemma codes_model_valid (texts : list string) (r t d : nat) :
  r < length texts ->
  t < length (Toy.char_codes (nth r texts ""%string)) ->
  @model Binary32.arithmetic Binary32.codes (@tokenizer Binary32.arithmetic Binary32.codes texts) r t d
  = Binary32.of_Z
      (Z.of_nat (nth t (Toy.char_codes (nth r texts ""%string)) 0 + d)).
Proof.
  intros Hr Ht. rewrite codes_model. unfold Toy.mask_at, Toy.token_at.
  rewrite (@any_tokenizer_mask_valid Binary32.arithmetic Binary32.codes texts r t Hr Ht).
  rewrite (@any_tokenizer_ids_valid Binary32.arithmetic Binary32.codes texts r t Hr Ht).
  reflexivity.
Qed.

Lemma codes_model_padded (texts : list string) (r t d : nat) :
  r < length texts ->
  length (Toy.char_codes (nth r texts ""%string)) <= t ->
  @model Binary32.arithmetic Binary32.codes (@tokenizer Binary32.arithmetic Binary32.codes texts) r t d = Binary32.of_Z 7.
Proof.
  intros Hr Ht. rewrite codes_model. unfold Toy.mask_at.
  rewrite (@any_tokenizer_mask_padded Binary32.arithmetic Binary32.codes texts r t Hr Ht).
  reflexivity.
Qed.

(** The sum of the masked terms of a row of [n] tokens padded to
    [n + k] positions. *)
Lemma masked_sum (g h : nat -> spec_float) (n k : nat) :
  (forall t, t < n -> Binary32.nonneg (g t) = true) ->
  (forall t, t < n -> g t = h t) ->
  (forall t, n <= t -> g t = S754_zero false) ->
  Binary32.sum (map g (seq 0 (n + k))) = Binary32.sum (map h (seq 0 n)).
Proof.
  intros Hpos Hsame Hpad. rewrite seq_app, map_app.
  replace (map g (seq (0 + n) k)) with (repeat (S754_zero false) k).
  - rewrite Binary32Sums.sum_padded.
    + f_equal. apply map_ext_in. intros t Ht. apply in_seq in Ht.
      apply Hsame. lia.
    + apply Forall_map, Forall_forall. intros t Ht. apply in_seq in Ht.
      apply Hpos. lia.
  - rewrite <- (map_const_seq (S754_zero false) (0 + n) k).
    apply map_ext_in. intros t Ht. apply in_seq in Ht. symmetry.
    apply Hpad. lia.
Qed.

Lemma codes_chunk_independent : @chunk_independent Binary32.arithmetic Binary32.codes.
Proof.
  intros texts r Hr. unfold pooled.
  set (text := nth r texts ""%string).
  set (n := length (@tokenize Binary32.arithmetic Binary32.codes text)).
  set (L := list_max (map (@length nat) (map (@tokenize Binary32.arithmetic Binary32.codes) texts))).
  assert (Hle : n <= L)
    by exact (@GeneralFacts.any_tokens_le_longest Binary32.arithmetic Binary32.codes texts r Hr).
  assert (HL' : list_max (map (@length nat) (map (@tokenize Binary32.arithmetic Binary32.codes) [text]))
                = n) by (cbn [map list_max fold_right]; apply Nat.max_0_r).
  rewrite HL'. cbn [nth]. fold n.
  replace L with (n + (L - n)) by lia.
  apply map_ext. intro d. f_equal; [|f_equal].
  - apply masked_sum.
    + intros t Ht. destruct (Nat.ltb_spec t n) as [_|H]; [|lia].
      rewrite (codes_model_valid texts d Hr Ht).
      apply Binary32Sums.mul_nonneg; [|reflexivity].
      apply Binary32Sums.of_Z_nonneg. lia.
    + intros t Ht.
      rewrite (codes_model_valid texts d Hr Ht).
      rewrite (@codes_model_valid [text] 0 t d ltac:(simpl; lia) Ht).
      reflexivity.
    + intros t Ht. destruct (Nat.ltb_spec t n) as [H|_]; [lia|].
      rewrite (codes_model_padded texts d Hr Ht). reflexivity.
  - apply masked_sum.
    + intros t Ht. destruct (Nat.ltb_spec t n) as [_|H]; [reflexivity | lia].
    + reflexivity.
    + intros t Ht. destruct (Nat.ltb_spec t n) as [H|_]; [lia | reflexivity].
Qed.

End Binary32Codes.

(** * The scores *)

Lemma pooled_of_chunk {A : General.Arithmetic} {P : General.Provider A}
    (texts : list string) (batch : Z) (i : nat) :
  General.chunk_independent ->
  (0 < batch)%Z ->
  i < length texts ->
  General.pooled (General.chunk_of texts batch i) (i mod Z.to_nat batch)
  = General.pooled [nth i texts ""] 0.
Proof.
  intros CI Hb Hi. rewrite CI.
  - now rewrite chunk_of_text.
  - unfold General.chunk_of. rewrite length_slice.
    pose proof (Nat.mod_upper_bound i (Z.to_nat batch) ltac:(lia)).
    pose proof (Nat.div_mod_eq i (Z.to_nat batch)). lia.
Qed.

(** C7, as stated, fails in binary32.  With the provider
    [Binary32.codes], the context ab, c and the query c, whose pooled
    vectors are not zero, both scores are [8388609 * 2^-23], which is
    above 1: the scores do not lie in the closed range from -1 to 1. *)
Lemma binary32_score_above_one :
  snd (General.cosine_similarity (P := Binary32.codes) ["c"] 1
         (fst (General.set_context_qa (P := Binary32.codes) ["ab"; "c"]
                 ["x"; "y"] General.init)))
  = Ok [[S754_finite false 8388609 (-23); S754_finite false 8388609 (-23)]]
  /\ SFltb (Binary32.of_Z 1) (S754_finite false 8388609 (-23)) = true
  /\ General.embed_batch (P := Binary32.codes) ["c"]
     = [[Binary32.of_Z 99; Binary32.of_Z 100]].
Proof. repeat split; vm_compute; reflexivity. Qed.

(** C7, amended.  In every arithmetic: after a successful
    [set_context_qa], for a query list that is not empty and a positive
    batch, the similarity matrix has one row per query, and its entry for
    query [i] and context entry [j] is the dot product of the
    L2-normalised pooled vector of the text of query [i] with the
    L2-normalised pooled vector of the text of entry [j].  For a provider
    whose pooled vector of a text does not depend on the other texts of
    its chunk, a query whose text is verbatim entry [j] of the context
    scores against entry [j] the dot product of its own normalised vector
    with itself. *)
Theorem scores_are_normalized_dot_products {A : General.Arithmetic}
    {P : General.Provider A}
    (s0 : General.QASearcher) (cq ca qs : list string) (batch : Z) :
  snd (General.set_context_qa cq ca s0) = Ok tt ->
  qs <> [] ->
  (0 < batch)%Z ->
  exists sim,
    General.cosine_similarity qs batch (fst (General.set_context_qa cq ca s0))
    = (fst (General.set_context_qa cq ca s0), Ok sim) /\
    length sim = length qs /\
    (forall i, i < length qs ->
       nth i sim []
       = map (fun j =>
                General.cosine
                  (General.pooled (General.chunk_of qs batch i)
                                  (i mod Z.to_nat batch))
                  (General.pooled (General.chunk_of cq 32 j) (j mod 32)))
             (seq 0 (length cq))) /\
    (General.chunk_independent ->
     forall i j, i < length qs -> j < length cq ->
       nth i qs "" = nth j cq "" ->
       nth j (nth i sim []) (General.of_mask 0)
       = General.cosine (General.pooled [nth i qs ""] 0)
                        (General.pooled [nth i qs ""] 0)).
Proof.
  intros Hset Hne Hb.
  destruct (@records_of_context A P s0 cq ca qs batch Hset Hne Hb)
    as [_ [[sim [Hsim [Hls Hrows]]] _]].
  exists sim. split; [exact Hsim|]. split; [exact Hls|].
  split; [exact Hrows|].
  intros CI i j Hi Hj Hsame. rewrite (Hrows i Hi).
  rewrite (@nth_map_seq _ _ (length cq) j (General.of_mask 0) Hj).
  unfold General.embedded_row.
  rewrite (@pooled_of_chunk A P qs batch i CI Hb Hi).
  change (j mod 32) with (j mod Z.to_nat 32).
  rewrite (@pooled_of_chunk A P cq 32 j CI ltac:(lia) Hj).
  now rewrite Hsame.
Qed.

Lemma scores_are_normalized_dot_products_witness :
  snd (General.set_context_qa (P := Binary32.codes) ["ab"; "c"] ["x"; "y"]
         General.init) = Ok tt /\
  General.chunk_independent (P := Binary32.codes) /\
  exists sim,
    snd (General.cosine_similarity (P := Binary32.codes) ["c"] 1
           (fst (General.set_context_qa (P := Binary32.codes) ["ab"; "c"]
                   ["x"; "y"] General.init))) = Ok sim /\
    nth 1 (nth 0 sim []) (Binary32.of_Z 0)
    = General.cosine (A := Binary32.arithmetic)
        (General.pooled (P := Binary32.codes) ["c"] 0)
        (General.pooled (P := Binary32.codes) ["c"] 0).
Proof.
  split; [vm_compute; reflexivity|].
  split; [exact Binary32Codes.codes_chunk_independent|].
  destruct (@scores_are_normalized_dot_products Binary32.arithmetic
              Binary32.codes General.init ["ab"; "c"] ["x"; "y"] ["c"] 1%Z)
    as [sim [Hsim [_ [_ Hself]]]].
  - vm_compute. reflexivity.
  - discriminate.
  - lia.
  - exists sim. split; [now rewrite Hsim|].
    apply (Hself Binary32Codes.codes_chunk_independent 0 1);
      [simpl; lia | simpl; lia | reflexivity].
Defined.

(** * The request for answers *)

Lemma any_get_answers_frame {A : General.Arithmetic} {P : General.Provider A}
    (qs : list string) (batch : Z) (s : General.QASearcher) :
  fst (General.get_answers qs batch s) = s.
Proof.
  unfold General.get_answers. apply bind_frame.
  - intro s0. unfold General.cosine_similarity.
    apply bind_frame; [reflexivity|].
    intros emb s1. apply bind_frame; [reflexivity|].
    intros [e|] s2; reflexivity.
  - intros sim s0. apply for_each_frame. intros i s1.
    repeat (apply bind_frame; [reflexivity | intros ? ?]). reflexivity.
Qed.

Lemma chunk_of_one (texts : list string) (i : nat) :
  i < length texts -> General.chunk_of texts 1 i = [nth i texts ""].
Proof.
  intro Hi. unfold General.chunk_of, slice.
  change (Z.to_nat 1) with 1. rewrite Nat.div_1_r, Nat.mul_1_l.
  replace (i + 1 - i) with 1 by lia.
  rewrite <- (firstn_skipn i texts) at 2.
  assert (Hl : length (firstn i texts) = i) by (rewrite length_firstn; lia).
  rewrite app_nth2 by lia. rewrite Hl, Nat.sub_diag.
  destruct (skipn i texts) as [|a l] eqn:E; [|reflexivity].
  apply (f_equal (@length string)) in E. rewrite length_skipn in E.
  simpl in E. lia.
Qed.

(** X14.  In every arithmetic, for every provider: the handler of
    [/get_answer] raises KeyError when the body lacks the key questions
    and never changes the searcher.  It embeds with batch 1, so each
    query is tokenized alone, without padding: on a context stored with at
    least as many answers as questions and a body whose questions are not
    empty it returns one record per query, read at the index [argmax]
    gives for the scores of the pooled vector of the query embedded alone
    against the pooled vectors of the context. *)
Theorem get_answer_request_embeds_each_query_alone {A : General.Arithmetic}
    {P : General.Provider A}
    (data : Body) (s0 : General.QASearcher) (cq ca qs : list string) :
  snd (General.set_context_qa cq ca s0) = Ok tt ->
  length cq <= length ca ->
  data "questions" = Some qs ->
  qs <> [] ->
  let s := fst (General.set_context_qa cq ca s0) in
  let scores := fun i =>
    map (fun j =>
           General.cosine
             (General.pooled [nth i qs ""] 0)
             (General.pooled (General.chunk_of cq 32 j) (j mod 32)))
        (seq 0 (length cq)) in
  exists selected : nat -> nat,
    (forall i, i < length qs ->
       General.argmax (scores i) = Ok (selected i) /\
       selected i < length cq) /\
    General.get_answer data s
    = (s, Ok (map (fun i => {| orig_q := nth i qs "";
                               best_q := nth (selected i) cq "";
                               best_a := nth (selected i) ca "" |})
                  (seq 0 (length qs)))) /\
    (forall s', fst (General.get_answer data s') = s') /\
    (forall data' s',
        data' "questions" = None ->
        General.get_answer data' s' = (s', Raise KeyError)).
Proof.
  intros Hset Hlen Hd Hne s scores.
  destruct (@records_of_context A P s0 cq ca qs 1%Z Hset Hne ltac:(lia))
    as [_ [_ [Hbest [Hok _]]]].
  assert (Hsc : forall i, i < length qs ->
            map (fun j => General.cosine (General.embedded_row qs 1 i)
                                         (General.embedded_row cq 32 j))
                (seq 0 (length cq)) = scores i).
  { intros i Hi. unfold scores, General.embedded_row.
    rewrite (chunk_of_one qs Hi). change (Z.to_nat 1) with 1.
    now rewrite Nat.mod_1_r. }
  exists (fun i => General.best_index (scores i)).
  split; [|split; [|split]].
  - intros i Hi. rewrite <- (Hsc i Hi). now apply Hbest.
  - unfold General.get_answer, item, bind at 1, lift. rewrite Hd.
    fold s in Hok. rewrite Hok.
    + f_equal. f_equal. apply map_ext_in. intros i Hi. apply in_seq in Hi.
      now rewrite (Hsc i) by lia.
    + intros i Hi. destruct (Hbest i Hi) as [_ H]. lia.
  - intro s'. unfold General.get_answer, item, bind at 1, lift.
    destruct (data "questions"); [apply any_get_answers_frame | reflexivity].
  - intros data' s' Hnone. unfold General.get_answer, item, bind at 1, lift.
    now rewrite Hnone.
Qed.

Lemma get_answer_request_embeds_each_query_alone_witness :
  snd (General.set_context_qa (P := Binary32.codes) ["ab"; "c"] ["x"; "y"]
         General.init) = Ok tt /\
  exists resp,
    General.get_answer (P := Binary32.codes)
      (fun key => if String.eqb key "questions" then Some ["c"; "ab"] else None)
      (fst (General.set_context_qa (P := Binary32.codes) ["ab"; "c"]
              ["x"; "y"] General.init))
    = (fst (General.set_context_qa (P := Binary32.codes) ["ab"; "c"]
              ["x"; "y"] General.init), Ok resp) /\
    length resp = 2.
Proof.
  split; [vm_compute; reflexivity|].
  destruct (@get_answer_request_embeds_each_query_alone Binary32.arithmetic
              Binary32.codes
              (fun key => if String.eqb key "questions"
                          then Some ["c"; "ab"] else None)
              General.init ["ab"; "c"] ["x"; "y"] ["c"; "ab"])
    as [selected [_ [H _]]].
  - vm_compute. reflexivity.
  - simpl. lia.
  - reflexivity.
  - discriminate.
  - eexists. split; [exact H | reflexivity].
Defined.

(** * Over the reals the two programs are one *)

Lemma bind_run_ok {S A B} (c : M S A) (k : A -> M S B) (s s' : S) (a : A) :
  c s = (s', Ok a) -> bind c k s = k a s'.
Proof. intro H. unfold bind. now rewrite H. Qed.

Lemma bind_run_raise {S A B} (c : M S A) (k : A -> M S B) (s s' : S)
    (e : exn) :
  c s = (s', Raise e) -> bind c k s = (s', Raise e).
Proof. intro H. unfold bind. now rewrite H. Qed.

(** Two loops whose bodies read their states and agree step by step. *)
Lemma for_each_agree {S1 S2 A B} (g : S1 -> S2) (f1 : A -> M S1 B)
    (f2 : A -> M S2 B) (l : list A) (s : S1) :
  (forall x, fst (f1 x s) = s /\ f2 x (g s) = (g s, snd (f1 x s))) ->
  for_each f2 l (g s)
  = (g (fst (for_each f1 l s)), snd (for_each f1 l s)).
Proof.
  intro H. induction l as [|x l IH]; [reflexivity|].
  cbn [for_each]. destruct (H x) as [H1 H2].
  destruct (f1 x s) as [s1 [y|e]] eqn:E1; cbn [fst snd] in *; subst s1.
  - rewrite (@bind_run_ok _ _ _ _ _ _ _ _ H2), (@bind_run_ok _ _ _ _ _ _ _ _ E1).
    destruct (for_each f1 l s) as [s1 [ys|e]] eqn:E; cbn [fst snd] in IH.
    + now rewrite (@bind_run_ok _ _ _ _ _ _ _ _ IH), (@bind_run_ok _ _ _ _ _ _ _ _ E).
    + now rewrite (@bind_run_raise _ _ _ _ _ _ _ _ IH), (@bind_run_raise _ _ _ _ _ _ _ _ E).
  - now rewrite (@bind_run_raise _ _ _ _ _ _ _ _ H2), (@bind_run_raise _ _ _ _ _ _ _ _ E1).
Qed.

Section RealInstance.

Context {P : EmbeddingProvider}.

Lemma real_pooled (texts : list string) (r : nat) :
  r < length texts ->
  General.pooled (P := real_provider P) texts r
  = masked_mean (model (tokenizer texts) r) (token_count texts r).
Proof.
  intro Hr. unfold General.pooled, masked_mean.
  apply map_ext. intro d.
  pose proof (@tokens_le_longest P texts r Hr) as Hle.
  unfold token_count in *.
  set (n := length (tokenize (nth r texts ""))) in *.
  set (L := list_max (map (@length nat) (map tokenize texts))) in *.
  change (rsum (map (fun t => (model (tokenizer texts) r t d
                               * IZR (if t <? n then 1 else 0))%R) (seq 0 L))
          / Rmax (rsum (map (fun t => IZR (if t <? n then 1 else 0)) (seq 0 L)))
                 1e-9
          = rsum (map (fun t => model (tokenizer texts) r t d) (seq 0 n))
            / Rmax (INR n) 1e-9)%R.
  replace L with (n + (L - n)) by lia.
  now rewrite rsum_mask, (rsum_masked (fun t => model (tokenizer texts) r t d)).
Qed.

Lemma real_embed_batch (texts : list string) :
  General.embed_batch (P := real_provider P) texts = embed_batch texts.
Proof.
  rewrite GeneralFacts.embed_batch_pooled, embed_batch_rows.
  apply map_ext_in. intros r Hr. apply in_seq in Hr.
  apply real_pooled. lia.
Qed.

Lemma real_get_embeddings (texts : list string) (batch : Z) :
  General.get_embeddings (P := real_provider P) texts batch
  = get_embeddings texts batch.
Proof.
  unfold General.get_embeddings, get_embeddings.
  destruct (range (length texts) batch) as [starts|e]; [|reflexivity].
  cbn [bind_result]. unfold General.cat, cat.
  rewrite (map_ext _ _ (fun i => real_embed_batch
                                   (slice texts i (i + Z.to_nat batch)))).
  reflexivity.
Qed.

Lemma real_argmax (t : list R) :
  General.argmax (A := real_arithmetic) t = argmax t.
Proof.
  destruct t as [|x l]; [reflexivity|]. unfold General.argmax, argmax.
  f_equal. generalize 0 x 1. induction l as [|y l IH]; intros b best ix;
    [reflexivity|].
  cbn [General.argmax_from argmax_from General.lt real_arithmetic].
  destruct (Rlt_dec best y); apply IH.
Qed.

Lemma real_set_context_qa (qs ans : list string) (s : QASearcher) :
  General.set_context_qa (P := real_provider P) qs ans (general_searcher s)
  = (general_searcher (fst (set_context_qa qs ans s)),
     snd (set_context_qa qs ans s)).
Proof.
  unfold General.set_context_qa, set_context_qa, General.get_q_embeddings,
    get_q_embeddings, bind, write, lift, ret.
  cbn [fst snd]. rewrite real_get_embeddings.
  destruct (get_embeddings qs 32) as [x|e]; reflexivity.
Qed.

Lemma real_cosine_similarity (qs : list string) (batch : Z) (s : QASearcher) :
  General.cosine_similarity (P := real_provider P) qs batch (general_searcher s)
  = (general_searcher (fst (cosine_similarity qs batch s)),
     snd (cosine_similarity qs batch s)).
Proof.
  unfold General.cosine_similarity, cosine_similarity, bind, lift, read, raise.
  rewrite real_get_embeddings.
  destruct (get_embeddings qs batch) as [y|e]; [|reflexivity].
  cbn [general_searcher General.question_embeddings fst snd].
  destruct (question_embeddings s) as [e|]; [|reflexivity].
  change (General.mm (A := real_arithmetic)
            (General.normalize (A := real_arithmetic) y) e)
    with (mm (normalize y) e).
  destruct (mm (normalize y) e); reflexivity.
Qed.

(** [get_answers] over the reals, in the second program, is [get_answers]
    of the first. *)
Lemma real_get_answers (qs : list string) (batch : Z) (s : QASearcher) :
  General.get_answers (P := real_provider P) qs batch (general_searcher s)
  = (general_searcher (fst (get_answers qs batch s)),
     snd (get_answers qs batch s)).
Proof.
  pose proof (real_cosine_similarity qs batch s) as Hsim.
  assert (Hfr : fst (cosine_similarity qs batch s) = s).
  { unfold cosine_similarity. apply bind_frame; [reflexivity|].
    intros emb s1. apply bind_frame; [reflexivity|].
    intros [e|] s2; reflexivity. }
  unfold General.get_answers, get_answers.
  destruct (cosine_similarity qs batch s) as [s' [sim|e]] eqn:E;
    cbn [fst snd] in *; subst s'.
  - rewrite (@bind_run_ok _ _ _ _ _ _ _ _ Hsim), (@bind_run_ok _ _ _ _ _ _ _ _ E).
    apply for_each_agree. intro i.
    unfold bind, lift, read, ret.
    change (@General.num real_arithmetic) with R.
    unfold Tensor2, Tensor1 in *.
    destruct (getitem sim i) as [row|e]; [|split; reflexivity].
    rewrite real_argmax.
    destruct (argmax row) as [k|e]; [|split; reflexivity].
    cbn [general_searcher General.questions General.answers].
    destruct (subscript (questions s) k) as [bq|e]; [|split; reflexivity].
    destruct (subscript (answers s) k) as [ba|e]; [|split; reflexivity].
    destruct (getitem qs i) as [oq|e]; split; reflexivity.
  - now rewrite (@bind_run_raise _ _ _ _ _ _ _ _ Hsim), (@bind_run_raise _ _ _ _ _ _ _ _ E).
Qed.

End RealInstance.

(** * The comparison of [argmax] is an order *)

Module Binary32Order.

Lemma lt_key (a b : spec_float) :
  Binary32.lt a b = true <-> Binary32.key_lt (Binary32.key a) (Binary32.key b).
Proof.
  unfold Binary32.key_lt.
  destruct a as [[|]|[|]| |[|] m1 e1]; destruct b as [[|]|[|]| |[|] m2 e2];
    cbn [Binary32.lt Binary32.key fst snd];
    unfold SFltb, SFcompare;
    try (split; [intro H; try discriminate H; lia
                | intro H; try reflexivity; exfalso; lia]).
  - change (Pos.compare_cont Eq m1 m2) with (Pos.compare m1 m2).
    destruct (Z.compare_spec e1 e2) as [He|He|He];
      [destruct (Pos.compare_spec m1 m2) as [Hm|Hm|Hm] | |];
      cbn [CompOpp]; split; intro H;
      first [discriminate H | reflexivity | lia | exfalso; lia].
  - change (Pos.compare_cont Eq m1 m2) with (Pos.compare m1 m2).
    destruct (Z.compare_spec e1 e2) as [He|He|He];
      [destruct (Pos.compare_spec m1 m2) as [Hm|Hm|Hm] | |];
      cbn [CompOpp]; split; intro H;
      first [discriminate H | reflexivity | lia | exfalso; lia].
Qed.

Lemma lt_false_key (a b : spec_float) :
  Binary32.lt a b = false <->
  ~ Binary32.key_lt (Binary32.key a) (Binary32.key b).
Proof.
  rewrite <- lt_key. destruct (Binary32.lt a b); split; intro H;
    first [reflexivity | discriminate | congruence | now contradiction H].
Qed.

(** On binary32 numbers the comparison of [argmax] orders every row. *)
Lemma binary32_rows_are_ordered (l : list spec_float) :
  General.ordered_row (A := Binary32.arithmetic) l = true.
Proof.
  unfold General.ordered_row.
  apply forallb_forall. intros a _. apply andb_true_intro. split.
  - apply negb_true_iff, lt_false_key. unfold Binary32.key_lt. lia.
  - apply forallb_forall. intros b _. apply forallb_forall. intros c _.
    change (@General.lt Binary32.arithmetic) with Binary32.lt.
    apply andb_true_intro. split.
    + destruct (Binary32.lt a b) eqn:Hab; [|reflexivity].
      destruct (Binary32.lt b c) eqn:Hbc; [|reflexivity].
      cbn [andb implb]. apply lt_key in Hab, Hbc. apply lt_key.
      unfold Binary32.key_lt in *. lia.
    + destruct (Binary32.lt a b) eqn:Hab; [|reflexivity].
      cbn [implb]. apply lt_key in Hab.
      destruct (Binary32.lt a c) eqn:Hac; [reflexivity|].
      apply lt_false_key in Hac. cbn [orb]. apply lt_key.
      unfold Binary32.key_lt in *. lia.
Qed.

End Binary32Order.

(** Over the reals as well. *)
Lemma real_rows_are_ordered (l : list R) :
  General.ordered_row (A := real_arithmetic) l = true.
Proof.
  unfold General.ordered_row.
  apply forallb_forall. intros a _. apply andb_true_intro. split.
  - cbn [General.lt real_arithmetic].
    destruct (Rlt_dec a a); [exfalso; lra | reflexivity].
  - apply forallb_forall. intros b _. apply forallb_forall. intros c _.
    cbn [General.lt real_arithmetic].
    destruct (Rlt_dec a b), (Rlt_dec b c), (Rlt_dec a c), (Rlt_dec c b);
      try reflexivity; exfalso; lra.
Qed.

(** In exact arithmetic the scores lie between -1 and 1, and a vector of
    norm at least [1e-12] scores 1 against itself. *)
Lemma real_cosine_bounds (u v : list R) :
  (-1 <= General.cosine (A := real_arithmetic) u v <= 1)%R.
Proof. exact (dot_normalized_bounds u v). Qed.

Lemma real_self_cosine (u : list R) :
  (1e-12 <= norm2 u)%R -> General.cosine (A := real_arithmetic) u u = 1%R.
Proof. exact (normalize_row_unit u). Qed.
